(** * gopher-socket: the per-connection loops of [loop.go]

    A shallow embedding of [closeChannel], [inLoop], [outLoop] and [pinger]
    and of the state they work on, followed by the properties of the
    session engine that are checked against it.

    The functions of [loop.go] run as goroutines.  Each of them is embedded
    here as a sequential program over an explicit state; what the other
    goroutines and the collaborators (transport, codec, event dispatcher)
    can observe of it is recorded, in order, in a trace of events.  A
    channel operation that cannot proceed (a send on a full buffer, a
    receive on an empty one) and a collaborator call whose answer is not
    available stop the program in a [Blocks] outcome.  [closeChannel],
    which both loops call on the same channel, is given a second time
    operation by operation, so that two calls can be run in any order of
    their operations. *)

From Stdlib Require Import ZArith Lia Ascii String.
From stdpp Require Import base decidable option list gmap strings.

Set Default Proof Using "Type".
#[global] Set Warnings "-abstract-large-number".

(** ** Data *)

(** [const ( queueBufferSize = 10000 )] *)
Definition queueBufferSize : Z := 10000.

(** Go [error] values met in [loop.go].  [ErrorWrongHeader] is declared in
    the file; [ErrorSocketOverflood] and [protocol.ErrorWrongPacket] are
    declared elsewhere in the package; [ForeignError] stands for the errors
    that the transport, the codec and [encoding/json] produce. *)
Inductive error : Type :=
| ErrorWrongHeader
| ErrorSocketOverflood
| ErrorWrongPacket
| ForeignError (text : string).

Global Instance error_eq_dec : EqDecision error.
Proof. solve_decision. Defined.

(** [type Header struct].  A Go [int] field is a [Z]; the [[]string] field
    is a list (a nil slice and an empty one are not told apart). *)
Record Header : Type := mkHeader {
  Sid : string;
  Upgrades : list string;
  PingInterval : Z;
  PingTimeout : Z
}.

Global Instance Header_eq_dec : EqDecision Header.
Proof. solve_decision. Defined.

(** The zero value of [Header], which a fresh [Channel] holds. *)
Definition zeroHeader : Header := mkHeader "" [] 0 0.

(** The message types that the [switch] of [inLoop] tells apart:
    [protocol.MessageTypeOpen], [protocol.MessageTypePing],
    [protocol.MessageTypePong], and every other value ([default]). *)
Inductive MessageType : Type :=
| MessageTypeOpen
| MessageTypePing
| MessageTypePong
| MessageTypeOther (code : Z).

Global Instance MessageType_eq_dec : EqDecision MessageType.
Proof. solve_decision. Defined.

(** [protocol.Message], with the two fields that [inLoop] reads. *)
Record Message : Type := mkMessage {
  Type_ : MessageType;
  Source : string
}.

Global Instance Message_eq_dec : EqDecision Message.
Proof. solve_decision. Defined.

(** The names passed to [m.callLoopEvent]. *)
Inductive EventName : Type := OnConnection | OnDisconnection.

Global Instance EventName_eq_dec : EqDecision EventName.
Proof. solve_decision. Defined.

(** A [*Channel]: the key under which a channel is stored in
    [overflooded]. *)
Abbreviation ChanPtr := positive.

(** [type Channel struct], with the fields that [loop.go] reads or writes:
    the buffered channel [out] as the list of the strings it holds, oldest
    first (its capacity is [queueBufferSize], see [initChannel]), [header],
    and [alive] (every access goes through [aliveLock]).  [self] is the
    address of the struct.  The calls on [conn] appear in the trace. *)
Record Channel : Type := mkChannel {
  self : ChanPtr;
  out : list string;
  header : Header;
  alive : bool
}.

(** What a run of one of the functions does that the rest of the program
    can observe, in the order of the source. *)
Inductive Event : Type :=
| EvConnClose                          (* c.conn.Close() *)
| EvWriteMessage (msg : string)        (* c.conn.WriteMessage(msg) *)
| EvSetAlive (value : bool)            (* c.setAliveValue(value) *)
| EvRecv (msg : string)                (* <-c.out *)
| EvSend (msg : string)                (* c.out <- msg *)
| EvCallLoopEvent (ev : EventName)     (* m.callLoopEvent(c, ev) *)
| EvGo (msg : Message)                 (* go m.processIncomingMessage(c, msg) *)
| EvStoreOverflow (p : ChanPtr)        (* overflooded.Store(c, struct{}{}) *)
| EvDeleteOverflooded (p : ChanPtr).   (* overflooded.Delete(c) *)

Global Instance Event_eq_dec : EqDecision Event.
Proof. solve_decision. Defined.

(** The state: the channel the function was called on, the package-level
    [overflooded] map (used as a set of channels) and the trace so far. *)
Record State : Type := mkState {
  chan : Channel;
  overflooded : gset ChanPtr;
  trace : list Event
}.

Definition set_out (q : list string) (s : State) : State :=
  mkState (mkChannel (self (chan s)) q (header (chan s)) (alive (chan s)))
          (overflooded s) (trace s).

Definition set_header (h : Header) (s : State) : State :=
  mkState (mkChannel (self (chan s)) (out (chan s)) h (alive (chan s)))
          (overflooded s) (trace s).

Definition set_alive (v : bool) (s : State) : State :=
  mkState (mkChannel (self (chan s)) (out (chan s)) (header (chan s)) v)
          (overflooded s) (trace s).

Definition set_overflooded (r : gset ChanPtr) (s : State) : State :=
  mkState (chan s) r (trace s).

Definition emit (e : Event) (s : State) : State :=
  mkState (chan s) (overflooded s) (trace s ++ [e]).

(** ** The monad of the loops *)

(** Where a goroutine waits. *)
Inductive Blocked : Type :=
| OnRecv                          (* <-c.out on an empty buffer *)
| OnSend (msg : string)           (* c.out <- msg on a full buffer *)
| OnGetMessage                    (* c.conn.GetMessage() has not returned *)
| OnWriteMessage (msg : string)   (* c.conn.WriteMessage(msg) has not returned *)
| OnTick.                         (* <-ticker.C *)

Inductive Res (A : Type) : Type :=
| Val (a : A) (s : State)
| Blocks (b : Blocked) (s : State)
| Panics (s : State).

Arguments Val {A} a s.
Arguments Blocks {A} b s.
Arguments Panics {A} s.

Definition M (A : Type) : Type := State -> Res A.

Global Instance M_ret : MRet M := fun A (a : A) s => Val a s.

Global Instance M_bind : MBind M := fun A B (k : A -> M B) (m : M A) s =>
  match m s with
  | Val a s' => k a s'
  | Blocks b s' => Blocks b s'
  | Panics s' => Panics s'
  end.

(** ** Primitive operations *)

(** [func (c *Channel) Id() string] *)
Definition Id (c : Channel) : string := Sid (header c).

(** [func (c *Channel) IsAlive() bool] *)
Definition IsAlive : M bool := fun s => Val (alive (chan s)) s.

(** [func (c *Channel) setAliveValue(value bool)] *)
Definition setAliveValue (value : bool) : M unit :=
  fun s => Val tt (emit (EvSetAlive value) (set_alive value s)).

(** [len(c.out)] *)
Definition len_out : M Z := fun s => Val (Z.of_nat (length (out (chan s)))) s.

(** [c.out <- msg]: waits while the buffer holds [queueBufferSize]
    strings. *)
Definition send (msg : string) : M unit :=
  fun s =>
    if decide (Z.of_nat (length (out (chan s))) < queueBufferSize)%Z
    then Val tt (emit (EvSend msg) (set_out (out (chan s) ++ [msg]) s))
    else Blocks (OnSend msg) s.

(** [<-c.out]: waits while the buffer is empty. *)
Definition recv : M string :=
  fun s =>
    match out (chan s) with
    | [] => Blocks OnRecv s
    | msg :: q => Val msg (emit (EvRecv msg) (set_out q s))
    end.

(** A goroutine that waits. *)
Definition block {A} (b : Blocked) : M A := fun s => Blocks b s.

(** [c.conn.WriteMessage(msg)], once it has returned. *)
Definition connWriteMessage (msg : string) : M unit :=
  fun s => Val tt (emit (EvWriteMessage msg) s).

(** [c.conn.Close()] *)
Definition connClose : M unit := fun s => Val tt (emit EvConnClose s).

(** [m.callLoopEvent(c, ev)] *)
Definition callLoopEvent (ev : EventName) : M unit :=
  fun s => Val tt (emit (EvCallLoopEvent ev) s).

(** [go m.processIncomingMessage(c, msg)] *)
Definition goProcessIncomingMessage (msg : Message) : M unit :=
  fun s => Val tt (emit (EvGo msg) s).

(** [func deleteOverflooded(c *Channel)] *)
Definition deleteOverflooded : M unit :=
  fun s =>
    Val tt (emit (EvDeleteOverflooded (self (chan s)))
              (set_overflooded (overflooded s ∖ {[ self (chan s) ]}) s)).

(** [func storeOverflow(c *Channel)] *)
Definition storeOverflow : M unit :=
  fun s =>
    Val tt (emit (EvStoreOverflow (self (chan s)))
              (set_overflooded ({[ self (chan s) ]} ∪ overflooded s) s)).

(** [func (c *Channel) initChannel()] *)
Definition initChannel : M unit :=
  fun s => setAliveValue true (set_out [] s).

(** ** The collaborators on concrete frames

    [inLoop] calls [protocol.Decode] and [encoding/json]'s [Unmarshal].
    The loops below take both as parameters, and the general theorems hold
    for every codec and every decoder.  To run the loops on concrete frames
    this part gives one instance of each.  The JSON texts it reads are
    those without string escapes, fractions and exponents; any other text
    is taken as malformed. *)

#[local] Set Warnings "-register-all".

(** JSON values.  Numbers are the integer literals. *)
Inductive JSON : Type :=
| JNull
| JBool (b : bool)
| JNumber (n : Z)
| JString (s : string)
| JArray (elts : list JSON)
| JObject (members : list (string * JSON)).

(** The double quote character. *)
Definition dquote : ascii := ascii_of_nat 34.

Definition isSpace (a : ascii) : bool :=
  let n := nat_of_ascii a in
  (n =? 32)%nat || (n =? 9)%nat || (n =? 10)%nat || (n =? 13)%nat.

Definition isDigit (a : ascii) : bool :=
  let n := nat_of_ascii a in (48 <=? n)%nat && (n <=? 57)%nat.

Fixpoint skipSpace (s : string) : string :=
  match s with
  | String a r => if isSpace a then skipSpace r else s
  | EmptyString => s
  end.

(** The characters of a string literal up to its closing quote.  Escapes
    and control characters are outside the subset. *)
Fixpoint scanString (s : string) : option (string * string) :=
  match s with
  | EmptyString => None
  | String a r =>
      if decide (a = dquote) then Some (EmptyString, r)
      else if decide (a = "\"%char) then None
      else if (nat_of_ascii a <? 32)%nat then None
      else match scanString r with
           | Some (t, r') => Some (String a t, r')
           | None => None
           end
  end.

Fixpoint scanDigits (acc : Z) (s : string) : Z * string :=
  match s with
  | String a r =>
      if isDigit a
      then scanDigits (10 * acc + Z.of_nat (nat_of_ascii a - 48))%Z r
      else (acc, s)
  | EmptyString => (acc, s)
  end.

Definition startsFraction (s : string) : bool :=
  match s with
  | String b _ =>
      bool_decide (b = "."%char) || bool_decide (b = "e"%char)
      || bool_decide (b = "E"%char)
  | EmptyString => false
  end.

(** [0] or a digit sequence that does not start with [0]; a fraction or an
    exponent is outside the subset. *)
Definition scanNat (s : string) : option (Z * string) :=
  match s with
  | String a r =>
      if decide (a = "0"%char) then
        match r with
        | String b _ =>
            if isDigit b || startsFraction r then None else Some (0%Z, r)
        | EmptyString => Some (0%Z, r)
        end
      else if isDigit a then
        let '(n, r') := scanDigits 0 s in
        if startsFraction r' then None else Some (n, r')
      else None
  | EmptyString => None
  end.

Fixpoint expect (lit : string) (v : JSON) (s : string) : option (JSON * string) :=
  match lit, s with
  | EmptyString, _ => Some (v, s)
  | String a lit', String b s' =>
      if decide (a = b) then expect lit' v s' else None
  | String _ _, EmptyString => None
  end.

(** One value; the elements of an array after its first; one member of an
    object; the members of an object after its first.  [fuel] bounds the
    nesting and the number of elements. *)
Fixpoint parseValue (fuel : nat) (s : string) : option (JSON * string) :=
  match fuel with
  | O => None
  | S fuel' =>
      match skipSpace s with
      | EmptyString => None
      | String a r =>
          if decide (a = "n"%char) then expect "null" JNull (String a r)
          else if decide (a = "t"%char) then expect "true" (JBool true) (String a r)
          else if decide (a = "f"%char) then expect "false" (JBool false) (String a r)
          else if decide (a = dquote) then
            match scanString r with
            | Some (t, r1) => Some (JString t, r1)
            | None => None
            end
          else if decide (a = "-"%char) then
            match scanNat r with
            | Some (n, r1) => Some (JNumber (- n), r1)
            | None => None
            end
          else if isDigit a then
            match scanNat (String a r) with
            | Some (n, r1) => Some (JNumber n, r1)
            | None => None
            end
          else if decide (a = "["%char) then
            match skipSpace r with
            | String b r1 =>
                if decide (b = "]"%char) then Some (JArray [], r1)
                else match parseValue fuel' r with
                     | Some (v, r2) =>
                         match parseElems fuel' r2 with
                         | Some (vs, r3) => Some (JArray (v :: vs), r3)
                         | None => None
                         end
                     | None => None
                     end
            | EmptyString => None
            end
          else if decide (a = "{"%char) then
            match skipSpace r with
            | String b r1 =>
                if decide (b = "}"%char) then Some (JObject [], r1)
                else match parseMember fuel' r with
                     | Some (kv, r2) =>
                         match parseMembers fuel' r2 with
                         | Some (kvs, r3) => Some (JObject (kv :: kvs), r3)
                         | None => None
                         end
                     | None => None
                     end
            | EmptyString => None
            end
          else None
      end
  end
with parseElems (fuel : nat) (s : string) : option (list JSON * string) :=
  match fuel with
  | O => None
  | S fuel' =>
      match skipSpace s with
      | String a r =>
          if decide (a = "]"%char) then Some ([], r)
          else if decide (a = ","%char) then
            match parseValue fuel' r with
            | Some (v, r1) =>
                match parseElems fuel' r1 with
                | Some (vs, r2) => Some (v :: vs, r2)
                | None => None
                end
            | None => None
            end
          else None
      | EmptyString => None
      end
  end
with parseMember (fuel : nat) (s : string) : option ((string * JSON) * string) :=
  match fuel with
  | O => None
  | S fuel' =>
      match skipSpace s with
      | String a r =>
          if decide (a = dquote) then
            match scanString r with
            | Some (k, r1) =>
                match skipSpace r1 with
                | String b r2 =>
                    if decide (b = ":"%char) then
                      match parseValue fuel' r2 with
                      | Some (v, r3) => Some ((k, v), r3)
                      | None => None
                      end
                    else None
                | EmptyString => None
                end
            | None => None
            end
          else None
      | EmptyString => None
      end
  end
with parseMembers (fuel : nat) (s : string) : option (list (string * JSON) * string) :=
  match fuel with
  | O => None
  | S fuel' =>
      match skipSpace s with
      | String a r =>
          if decide (a = "}"%char) then Some ([], r)
          else if decide (a = ","%char) then
            match parseMember fuel' r with
            | Some (kv, r1) =>
                match parseMembers fuel' r1 with
                | Some (kvs, r2) => Some (kv :: kvs, r2)
                | None => None
                end
            | None => None
            end
          else None
      | EmptyString => None
      end
  end.

(** A whole text: one value and nothing but white space after it. *)
Definition parseJSON (data : string) : option JSON :=
  match parseValue (S (String.length data)) data with
  | Some (v, r) => match skipSpace r with EmptyString => Some v | _ => None end
  | None => None
  end.

(** *** [json.Unmarshal] into a [Header]

    The behaviour of [encoding/json] that matters to [inLoop]: a text that
    is not valid JSON is rejected before anything is stored; in a valid
    object the members are stored one after the other into the fields whose
    tag they match (letter case aside); a member whose value does not fit
    its field is skipped, the first such error is remembered, and decoding
    goes on with the next member; [null] stores nothing. *)

Definition lowerAscii (a : ascii) : ascii :=
  let n := nat_of_ascii a in
  if (65 <=? n)%nat && (n <=? 90)%nat then ascii_of_nat (n + 32) else a.

Fixpoint lowerString (s : string) : string :=
  match s with
  | String a r => String (lowerAscii a) (lowerString r)
  | EmptyString => EmptyString
  end.

Definition typeError (value field : string) : error :=
  ForeignError ("json: cannot unmarshal " +:+ value +:+ " into Go struct field Header." +:+ field).

Definition firstError (e1 e2 : option error) : option error :=
  match e1 with Some _ => e1 | None => e2 end.

Definition kindOf (v : JSON) : string :=
  match v with
  | JNull => "null"
  | JBool _ => "bool"
  | JNumber _ => "number"
  | JString _ => "string"
  | JArray _ => "array"
  | JObject _ => "object"
  end.

(** An element of [upgrades]: a string; any other value leaves the
    element at its zero value, and unless it is [null] it is an error. *)
Definition decodeElem (field : string) (v : JSON) : string * option error :=
  match v with
  | JString s => (s, None)
  | JNull => (EmptyString, None)
  | _ => (EmptyString, Some (typeError (kindOf v) field))
  end.

Fixpoint decodeElems (field : string) (vs : list JSON) : list string * option error :=
  match vs with
  | [] => ([], None)
  | v :: vs' =>
      let '(x, e1) := decodeElem field v in
      let '(xs, e2) := decodeElems field vs' in
      (x :: xs, firstError e1 e2)
  end.

(** A Go [int] has 64 bits. *)
Definition fitsInt (n : Z) : bool :=
  (- 2 ^ 63 <=? n)%Z && (n <? 2 ^ 63)%Z.

Definition decodeInt (field : string) (v : JSON) (old : Z) : Z * option error :=
  match v with
  | JNumber n => if fitsInt n then (n, None) else (old, Some (typeError "number" field))
  | JNull => (old, None)
  | _ => (old, Some (typeError (kindOf v) field))
  end.

(** One member of the object stored into the header. *)
Definition decodeMember (kv : string * JSON) (h : Header) : Header * option error :=
  let '(k, v) := kv in
  let key := lowerString k in
  if decide (key = "sid") then
    match v with
    | JString s => (mkHeader s (Upgrades h) (PingInterval h) (PingTimeout h), None)
    | JNull => (h, None)
    | _ => (h, Some (typeError (kindOf v) "sid"))
    end
  else if decide (key = "upgrades") then
    match v with
    | JArray vs =>
        let '(xs, e) := decodeElems "upgrades" vs in
        (mkHeader (Sid h) xs (PingInterval h) (PingTimeout h), e)
    | JNull => (mkHeader (Sid h) [] (PingInterval h) (PingTimeout h), None)
    | _ => (h, Some (typeError (kindOf v) "upgrades"))
    end
  else if decide (key = "pinginterval") then
    let '(n, e) := decodeInt "pingInterval" v (PingInterval h) in
    (mkHeader (Sid h) (Upgrades h) n (PingTimeout h), e)
  else if decide (key = "pingtimeout") then
    let '(n, e) := decodeInt "pingTimeout" v (PingTimeout h) in
    (mkHeader (Sid h) (Upgrades h) (PingInterval h) n, e)
  else (h, None).

Fixpoint decodeMembers (kvs : list (string * JSON)) (h : Header) : Header * option error :=
  match kvs with
  | [] => (h, None)
  | kv :: kvs' =>
      let '(h1, e1) := decodeMember kv h in
      let '(h2, e2) := decodeMembers kvs' h1 in
      (h2, firstError e1 e2)
  end.

(** [json.Unmarshal([]byte(data), &h)]: the header afterwards and the
    error returned. *)
Definition jsonUnmarshal (data : string) (h : Header) : Header * option error :=
  match parseJSON data with
  | None => (h, Some (ForeignError "json: syntax error"))
  | Some JNull => (h, None)
  | Some (JObject kvs) => decodeMembers kvs h
  | Some v =>
      (h, Some (ForeignError ("json: cannot unmarshal " +:+ kindOf v +:+ " into Go value of type Header")))
  end.

(** A text written with apostrophes in place of double quotes. *)
Fixpoint quoted (s : string) : string :=
  match s with
  | String a r => String (if decide (a = "'"%char) then dquote else a) (quoted r)
  | EmptyString => EmptyString
  end.

(** *** A codec

    A decoder in the style of engine.io, where the first character of a
    frame is its packet type: [0] open, [2] ping, [3] pong; an empty frame
    or an unknown type is an error. *)
Definition frameDecode (data : string) : Message * option error :=
  match data with
  | EmptyString => (mkMessage (MessageTypeOther 0) data, Some (ForeignError "Wrong message type"))
  | String a _ =>
      if decide (a = "0"%char) then (mkMessage MessageTypeOpen data, None)
      else if decide (a = "2"%char) then (mkMessage MessageTypePing data, None)
      else if decide (a = "3"%char) then (mkMessage MessageTypePong data, None)
      else if decide (a = "1"%char) then (mkMessage (MessageTypeOther 1) data, None)
      else if decide (a = "4"%char) then (mkMessage (MessageTypeOther 4) data, None)
      else (mkMessage (MessageTypeOther 0) data, Some (ForeignError "Wrong message type"))
  end.

(** ** The ack correlator *)

Module Ack.

(** Modelled from the spec: the result that the slot of a waiter
    receives, the payload of the matching reply or the timeout error.  The
    ack correlator (the type [ackProcessor] of the field [Channel.ack]) is
    declared outside [loop.go]. *)
Inductive Result : Type :=
| Payload (p : string)
| TimeoutError.

(** Modelled from the spec: the waiter table of a session, from the
    correlation ids of the pending waiters to their deadlines, together
    with the results handed to the waiting callers so far, oldest first.
    The table itself is not in [loop.go]. *)
Record Correlator : Type := mkCorrelator {
  waiters : gmap nat Z;
  resolved : list (nat * Result)
}.

(** Modelled from the spec: the registration step of [sendCorrelated],
    which is not in [loop.go]: a correlation id unique among the pending
    waiters is allocated and a waiter with the deadline is registered for
    it. *)
Definition register (deadline : Z) (c : Correlator) : nat * Correlator :=
  let id := fresh (dom (waiters c)) in
  (id, mkCorrelator (<[id := deadline]> (waiters c)) (resolved c)).

(** Modelled from the spec: resolution path (a), not in [loop.go]: an
    inbound reply with a matching id delivers its payload to the waiter
    and removes it from the table; without a waiter for the id the reply
    is dropped. *)
Definition deliverReply (id : nat) (p : string) (c : Correlator) : Correlator :=
  match waiters c !! id with
  | Some _ => mkCorrelator (delete id (waiters c)) (resolved c ++ [(id, Payload p)])
  | None => c
  end.

(** Modelled from the spec: resolution path (b), not in [loop.go]: the
    deadline of the waiter of [id] elapses, which produces a timeout
    result and removes the waiter; without a waiter for the id nothing
    happens. *)
Definition expire (id : nat) (c : Correlator) : Correlator :=
  match waiters c !! id with
  | Some _ => mkCorrelator (delete id (waiters c)) (resolved c ++ [(id, TimeoutError)])
  | None => c
  end.

(** Modelled from the spec: the two resolution attempts that race for a
    waiter, which are not in [loop.go]. *)
Inductive Attempt : Type :=
| Reply (id : nat) (p : string)
| Deadline (id : nat).

(** Modelled from the spec: the correlation id that an attempt carries,
    and the result it would give the waiter; neither is in [loop.go]. *)
Definition attemptId (a : Attempt) : nat :=
  match a with Reply id _ => id | Deadline id => id end.

(** Modelled from the spec: see [attemptId]. *)
Definition attemptResult (a : Attempt) : Result :=
  match a with Reply _ p => Payload p | Deadline _ => TimeoutError end.

(** Modelled from the spec: one resolution attempt on the table, which is
    not in [loop.go]. *)
Definition step (a : Attempt) (c : Correlator) : Correlator :=
  match a with
  | Reply id p => deliverReply id p c
  | Deadline id => expire id c
  end.

(** Modelled from the spec: a sequence of attempts, in the order in which
    they reach the table (the operations on the table are mutually
    exclusive); not in [loop.go]. *)
Definition run (l : list Attempt) (c : Correlator) : Correlator :=
  foldl (fun c a => step a c) c l.

(** The results that the callers waiting on [id] have received. *)
Definition resolutions (id : nat) (c : Correlator) : list Result :=
  (filter (fun r => r.1 = id) (resolved c)).*2.

(** The first attempt of a sequence on [id]. *)
Definition firstAttempt (id : nat) (l : list Attempt) : option Attempt :=
  head (filter (fun a => attemptId a = id) l).

End Ack.


(** ** Sessions, frames and a correlator for the examples *)

(** A live session at address [7] with two frames queued, registered in
    [overflooded] together with the session at address [9]. *)
Definition liveSession : State :=
  {| chan := {| self := 7%positive;
                out := ["42[chat]"; "2"];
                header := {| Sid := "abc"; Upgrades := [];
                             PingInterval := 25000; PingTimeout := 60000 |};
                alive := true |};
     overflooded := {[ 7%positive; 9%positive ]};
     trace := [] |}.

(** The same session after [closeChannel] has run on it, with ["1"] for
    the terminal sentinel. *)
Definition closedSession : State :=
  {| chan := {| self := 7%positive; out := ["1"];
                header := header (chan liveSession); alive := false |};
     overflooded := overflooded liveSession ∖ {[ 7%positive ]};
     trace := [EvConnClose; EvSetAlive false; EvRecv "42[chat]"; EvRecv "2";
               EvSend "1"; EvCallLoopEvent OnDisconnection;
               EvDeleteOverflooded 7%positive] |}.

(** A session that has just been created: [initChannel] on the zero
    value. *)
Definition newSession : State :=
  {| chan := {| self := 7%positive; out := []; header := zeroHeader; alive := true |};
     overflooded := ∅;
     trace := [] |}.

(** A live session with [n] strings queued, [first] at the front. *)
Definition queuedSession (first : string) (n : nat) : State :=
  {| chan := {| self := 7%positive;
                out := first :: repeat "42[chat]" (n - 1);
                header := zeroHeader; alive := true |};
     overflooded := ∅;
     trace := [] |}.

(** A live session whose queue holds two frames, the terminal sentinel
    ["1"], and a pong behind it. *)
Definition drainSession : State :=
  {| chan := {| self := 7%positive;
                out := ["42[chat]"; "2"; "1"; "3"];
                header := zeroHeader; alive := true |};
     overflooded := {[ 7%positive ]};
     trace := [] |}.

(** A session in the middle of a call of [closeChannel]: the transport is
    closed, the flag is cleared, and one frame is left on the queue. *)
Definition drainingSession : State :=
  {| chan := {| self := 7%positive;
                out := ["42[chat]"];
                header := zeroHeader; alive := false |};
     overflooded := ∅;
     trace := [EvConnClose; EvSetAlive false] |}.

(** An Open frame whose payload is cut short. *)
Definition truncatedOpen : Message :=
  {| Type_ := MessageTypeOpen; Source := "0{" |}.

(** An Open frame in which [pingInterval] is a string. *)
Definition mistypedOpen : string :=
  quoted "0{'sid':'abc','pingInterval':'x','pingTimeout':60000}".

(** Two well-formed Open frames. *)
Definition firstOpen : string := quoted "0{'sid':'abc','pingInterval':25000}".
Definition secondOpen : string := quoted "0{'sid':'xyz'}".

(** A correlator with one pending waiter, of id [1] and deadline [5]. *)
Definition onePending : Ack.Correlator :=
  {| Ack.waiters := {[ 1 := 5%Z ]}; Ack.resolved := [] |}.

(** ** Reading the outcome of a run *)

(** The state in which a run stands, whatever its outcome. *)
Definition final {A} (r : Res A) : State :=
  match r with
  | Val _ s => s
  | Blocks _ s => s
  | Panics s => s
  end.

(** The position of the first occurrence of an event in a trace, and the
    order of the first occurrences of two events. *)
Definition firstIndex (e : Event) (tr : list Event) : option nat :=
  fst <$> list_find (fun x => x = e) tr.

Definition happensBefore (e1 e2 : Event) (tr : list Event) : Prop :=
  match firstIndex e1 tr, firstIndex e2 tr with
  | Some i, Some j => i < j
  | _, _ => False
  end.

(** A program that leaves the header of the channel as it was, whatever
    its outcome. *)
Definition keepsHeader {A} (m : M A) : Prop :=
  forall s, header (chan (final (m s))) = header (chan s).

Create HintDb go discriminated.
Create HintDb torn discriminated.
Create HintDb others discriminated.

#[global] Hint Unfold mbind M_bind mret M_ret IsAlive setAliveValue len_out
  connClose callLoopEvent deleteOverflooded storeOverflow block
  connWriteMessage goProcessIncomingMessage set_out set_alive set_header
  set_overflooded emit : go.

Ltac go_unfold := repeat autounfold with go in *; simpl in *.

(** ** Reading a trace *)

(** The number of occurrences of an event in a trace. *)
Definition occurrences (e : Event) (tr : list Event) : nat :=
  length (filter (fun x => x = e) tr).

(** The strings passed to [c.conn.WriteMessage] in a trace, in order. *)
Definition written (tr : list Event) : list string :=
  omap (fun e => match e with EvWriteMessage msg => Some msg | _ => None end) tr.

(** The messages for which a [processIncomingMessage] goroutine was
    started in a trace, in order. *)
Definition dispatched (tr : list Event) : list Message :=
  omap (fun e => match e with EvGo msg => Some msg | _ => None end) tr.

(** A relation between the state in which a program starts and the state
    in which its run stands that holds for every run. *)
Definition preserves {A} (R : State -> State -> Prop) (m : M A) : Prop :=
  forall s, R s (final (m s)).

(** Between two states of a run in which no other goroutine acts on the
    channel: the liveness flag has not gone from false to true, nothing
    set it to true, and the transport close, the clearing of the flag and
    the disconnect notification each happened once if the flag went from
    true to false in between and not at all otherwise. *)
Definition tornDownOnce (s s' : State) : Prop :=
  (alive (chan s) = false -> alive (chan s') = false)
  /\ exists t,
      trace s' = trace s ++ t
      /\ occurrences (EvSetAlive true) t = 0
      /\ let n := if alive (chan s) && negb (alive (chan s')) then 1 else 0 in
         occurrences EvConnClose t = n
         /\ occurrences (EvSetAlive false) t = n
         /\ occurrences (EvCallLoopEvent OnDisconnection) t = n.

(** Between two states of a run: nothing set the liveness flag to true;
    and if the flag was false at the start it is false at the end and the
    run has not closed the transport, cleared the flag or fired the
    disconnect notification. *)
Definition staysDown (s s' : State) : Prop :=
  exists t,
    trace s' = trace s ++ t
    /\ occurrences (EvSetAlive true) t = 0
    /\ (alive (chan s) = false ->
        alive (chan s') = false
        /\ occurrences EvConnClose t = 0
        /\ occurrences (EvSetAlive false) t = 0
        /\ occurrences (EvCallLoopEvent OnDisconnection) t = 0).

(** Between two states of a run: the channel is the same one, and the
    membership of every other channel in [overflooded] is as it was. *)
Definition othersUntouched (s s' : State) : Prop :=
  self (chan s') = self (chan s)
  /\ forall p, p <> self (chan s) -> (p ∈ overflooded s' <-> p ∈ overflooded s).

(** ** The functions of [loop.go] *)

(** The two goroutines of a session that call [closeChannel]: the one
    that runs [inLoop] and the one that runs [outLoop]. *)
Inductive Goroutine : Type := Reader | Writer.

(** How one pass through the body of a [for] loop ends. *)
Inductive Ctl : Type :=
| Continue
| Return (err : option error).

Section Loops.

(** The string constants of package [protocol] that the loops put on
    [c.out]; their values are declared outside [loop.go]. *)
Variables (CloseMessage PingMessage PongMessage : string).

(** [protocol.Decode(pkg)]: the message and the error. *)
Variable Decode : string -> Message * option error.

(** [json.Unmarshal([]byte(data), &h)]: the header afterwards and the
    error. *)
Variable Unmarshal : string -> Header -> Header * option error.

(** [for len(c.out) > 0 { <-c.out }]: nothing else touches the buffer
    meanwhile, so the body runs once for each string it holds. *)
Fixpoint cleanOut (n : nat) : M unit :=
  match n with
  | O => mret tt
  | S n' => recv;; cleanOut n'
  end.

(** [func closeChannel(c *Channel, m *methods, args ...interface{}) error] *)
Definition closeChannel (args : list error) : M (option error) :=
  isAlive ← IsAlive;
  if negb isAlive then mret None
  else
    connClose;;
    setAliveValue false;;
    n ← len_out;
    cleanOut (Z.to_nat n);;
    send CloseMessage;;
    callLoopEvent OnDisconnection;;
    deleteOverflooded;;
    mret None.

(** [msg.Source[1:]]: a run-time panic on the empty string. *)
Definition sliceFrom1 (src : string) : M string :=
  fun s =>
    match src with
    | EmptyString => Panics s
    | String _ rest => Val rest s
    end.

(** [json.Unmarshal([]byte(data), &c.header)] *)
Definition unmarshalHeader (data : string) : M (option error) :=
  fun s =>
    let '(h, err) := Unmarshal data (header (chan s)) in
    Val err (set_header h s).

(** The [switch msg.Type] of [inLoop]. *)
Definition inLoop_switch (msg : Message) : M unit :=
  match Type_ msg with
  | MessageTypeOpen =>
      data ← sliceFrom1 (Source msg);
      err ← unmarshalHeader data;
      (if err is Some _ then closeChannel [ErrorWrongHeader];; mret tt
       else mret tt);;
      callLoopEvent OnConnection
  | MessageTypePing => send PongMessage
  | MessageTypePong => mret tt
  | MessageTypeOther _ => goProcessIncomingMessage msg
  end.

(** The body of the [for] of [inLoop], from the point where
    [c.conn.GetMessage()] has returned [(pkg, err)]. *)
Definition inLoop_iter (rd : string * option error) : M Ctl :=
  let '(pkg, err) := rd in
  match err with
  | Some e => r ← closeChannel [e]; mret (Return r)
  | None =>
      let '(msg, err) := Decode pkg in
      match err with
      | Some e => closeChannel [ErrorWrongPacket];; mret (Return (Some e))
      | None => inLoop_switch msg;; mret Continue
      end
  end.

(** [func inLoop(c *Channel, m *methods) error], run against the answers
    that [c.conn.GetMessage()] gives, in order; when they are used up the
    loop waits in [GetMessage]. *)
Fixpoint inLoop (reads : list (string * option error)) : M (option error) :=
  match reads with
  | [] => block OnGetMessage
  | rd :: reads' =>
      ctl ← inLoop_iter rd;
      match ctl with
      | Return r => mret r
      | Continue => inLoop reads'
      end
  end.

(** [func outLoop(c *Channel, m *methods) error], run against the errors
    that the successive calls of [c.conn.WriteMessage] return; when they
    are used up the loop waits in [WriteMessage].  [queueBufferSize/2] is
    a division of integer constants. *)
Fixpoint outLoop (writes : list (option error)) : M (option error) :=
  outBufferLen ← len_out;
  if decide (outBufferLen >= queueBufferSize - 1)%Z then
    closeChannel [ErrorSocketOverflood]
  else
    (if decide (outBufferLen > queueBufferSize `quot` 2)%Z
     then storeOverflow else deleteOverflooded);;
    msg ← recv;
    if decide (msg = CloseMessage) then mret None
    else
      match writes with
      | [] => block (OnWriteMessage msg)
      | err :: writes' =>
          connWriteMessage msg;;
          match err with
          | Some e => closeChannel [e]
          | None => outLoop writes'
          end
      end.

(** [func pinger(c *Channel)], run for the ticks that [ticker.C]
    delivers (their period comes from [c.conn.PingParams()]); when they are
    used up the loop waits for the next one. *)
Fixpoint pinger (ticks : nat) : M unit :=
  match ticks with
  | O => block OnTick
  | S ticks' =>
      isAlive ← IsAlive;
      if negb isAlive then mret tt
      else send PingMessage;; pinger ticks'
  end.

(** *** [closeChannel] step by step

    [closeChannel] is called by [inLoop] and by [outLoop], which run as two
    goroutines on one [Channel].  Between any two of its operations on the
    channel the other goroutine can run; [ClosePoint] names the operation
    that a call is about to do. *)
Inductive ClosePoint : Type :=
| AtIsAlive             (* if !c.IsAlive() *)
| AtConnClose           (* c.conn.Close() *)
| AtSetAliveValue       (* c.setAliveValue(false) *)
| AtLen                 (* for len(c.out) > 0 *)
| AtRecv                (* <-c.out *)
| AtSend                (* c.out <- protocol.CloseMessage *)
| AtCallLoopEvent       (* m.callLoopEvent(c, OnDisconnection) *)
| AtDeleteOverflooded   (* deleteOverflooded(c) *)
| AtReturn.             (* return nil *)

(** One operation of a call of [closeChannel], and the point it reaches. *)
Definition closeStep (pt : ClosePoint) : M ClosePoint :=
  match pt with
  | AtIsAlive =>
      isAlive ← IsAlive;
      mret (if negb isAlive then AtReturn else AtConnClose)
  | AtConnClose => connClose;; mret AtSetAliveValue
  | AtSetAliveValue => setAliveValue false;; mret AtLen
  | AtLen =>
      n ← len_out;
      mret (if decide (n > 0)%Z then AtRecv else AtSend)
  | AtRecv => recv;; mret AtLen
  | AtSend => send CloseMessage;; mret AtCallLoopEvent
  | AtCallLoopEvent => callLoopEvent OnDisconnection;; mret AtDeleteOverflooded
  | AtDeleteOverflooded => deleteOverflooded;; mret AtReturn
  | AtReturn => mret AtReturn
  end.

(** [n] operations of one call in a row. *)
Fixpoint closeSteps (n : nat) (pt : ClosePoint) : M ClosePoint :=
  match n with
  | O => mret pt
  | S n' => pt' ← closeStep pt; closeSteps n' pt'
  end.

(** Two calls of [closeChannel] on the same channel, the one made by the
    Reader Loop and the one made by the Writer Loop, run in the order that
    a schedule gives: each entry of the schedule lets one of the two calls
    do its next operation. *)
Fixpoint interleave (sched : list Goroutine) (rd wr : ClosePoint)
    : M (ClosePoint * ClosePoint) :=
  match sched with
  | [] => mret (rd, wr)
  | Reader :: sched' => rd' ← closeStep rd; interleave sched' rd' wr
  | Writer :: sched' => wr' ← closeStep wr; interleave sched' rd wr'
  end.

(** The state that [closeChannel] leaves when it runs on a live channel. *)
Definition closedState (s : State) : State :=
  mkState
    (mkChannel (self (chan s)) [CloseMessage] (header (chan s)) false)
    (overflooded s ∖ {[ self (chan s) ]})
    (trace s ++ [EvConnClose; EvSetAlive false]
             ++ map EvRecv (out (chan s))
             ++ [EvSend CloseMessage; EvCallLoopEvent OnDisconnection;
                 EvDeleteOverflooded (self (chan s))]).

(** * Properties *)

(** ** [closeChannel] *)

Lemma cleanOut_drains (q : list string) :
  forall p h a r t,
    cleanOut (length q) (mkState (mkChannel p q h a) r t)
    = Val tt (mkState (mkChannel p [] h a) r (t ++ map EvRecv q)).
Proof.
  induction q as [|x q IH]; intros p h a r t; simpl.
  - by rewrite app_nil_r.
  - go_unfold. unfold recv. simpl. go_unfold. rewrite IH.
    by rewrite <- app_assoc.
Qed.

Lemma closeChannel_live (args : list error) (s : State) :
  alive (chan s) = true -> closeChannel args s = Val None (closedState s).
Proof.
  destruct s as [[p q h a] r t]; simpl; intros ->.
  unfold closeChannel, closedState. go_unfold.
  rewrite Nat2Z.id, cleanOut_drains. unfold send. simpl.
  go_unfold. by rewrite <- !app_assoc.
Qed.

Lemma closeChannel_dead (args : list error) (s : State) :
  alive (chan s) = false -> closeChannel args s = Val None s.
Proof.
  intros Ha. unfold closeChannel. go_unfold. by rewrite Ha.
Qed.

Lemma closeChannel_returns (args : list error) (s : State) :
  closeChannel args s = Val None (if alive (chan s) then closedState s else s).
Proof.
  destruct (alive (chan s)) eqn:Ha.
  - by apply closeChannel_live.
  - by apply closeChannel_dead.
Qed.

(** C1, on the code.  On a session whose liveness flag is true, a call of
    [closeChannel] that no other goroutine interrupts returns [nil] and
    performs exactly these effects, in this order: it closes the
    transport, and only after that clears the liveness flag; it receives
    (and so discards) every string queued on [out], sends the terminal
    sentinel [protocol.CloseMessage] (the queue then holds the sentinel and
    nothing else), calls the disconnect notification, and removes the
    session from [overflooded].  The header is untouched, and the cause in
    [args] takes no part in any of it.  The flag is tested at entry and
    cleared by a later, separate operation, with the transport close in
    between. *)
Theorem closeChannel_effects (args : list error) (s : State) :
  alive (chan s) = true ->
  closeChannel args s
  = Val None
      {| chan := {| self := self (chan s);
                    out := [CloseMessage];
                    header := header (chan s);
                    alive := false |};
         overflooded := overflooded s ∖ {[ self (chan s) ]};
         trace := trace s
                  ++ [EvConnClose; EvSetAlive false]
                  ++ map EvRecv (out (chan s))
                  ++ [EvSend CloseMessage;
                      EvCallLoopEvent OnDisconnection;
                      EvDeleteOverflooded (self (chan s))] |}.
Proof.
  intros Ha. by rewrite (closeChannel_live args s Ha).
Qed.

(** C2.  [closeChannel] always returns [nil]; on a session whose liveness
    flag is already false it returns [nil] and leaves the whole state as it
    was: the queue, the header, the flag, [overflooded], and the trace (so
    no transport close, no receive, no send and no notification happens);
    and a call that follows another call has no effect. *)
Theorem closeChannel_idempotent (args : list error) (s : State) :
  (exists s', closeChannel args s = Val None s')
  /\ (alive (chan s) = false -> closeChannel args s = Val None s)
  /\ (forall args' s', closeChannel args s = Val None s' ->
                       closeChannel args' s' = Val None s').
Proof.
  split; [|split].
  - eexists. apply closeChannel_returns.
  - apply closeChannel_dead.
  - intros args' s'. rewrite closeChannel_returns. intros [= <-].
    apply closeChannel_dead. by destruct (alive (chan s)) eqn:Ha.
Qed.

(** ** [outLoop] *)

Lemma half_queueBufferSize : (queueBufferSize `quot` 2 = 5000)%Z.
Proof. reflexivity. Qed.

Lemma outLoop_unfold (writes : list (option error)) :
  outLoop writes
  = (outBufferLen ← len_out;
     if decide (outBufferLen >= queueBufferSize - 1)%Z then
       closeChannel [ErrorSocketOverflood]
     else
       (if decide (outBufferLen > queueBufferSize `quot` 2)%Z
        then storeOverflow else deleteOverflooded);;
       msg ← recv;
       if decide (msg = CloseMessage) then mret None
       else
         match writes with
         | [] => block (OnWriteMessage msg)
         | err :: writes' =>
             connWriteMessage msg;;
             match err with
             | Some e => closeChannel [e]
             | None => outLoop writes'
             end
         end).
Proof. by destruct writes. Qed.

(** The depth check of [outLoop] below the overflow bound, as the event it
    adds to the trace and the [overflooded] it leaves. *)
Lemma outLoop_below_bound (writes : list (option error)) (s : State) :
  (Z.of_nat (length (out (chan s))) < queueBufferSize - 1)%Z ->
  outLoop writes s
  = (msg ← recv;
     if decide (msg = CloseMessage) then mret None
     else
       match writes with
       | [] => block (OnWriteMessage msg)
       | err :: writes' =>
           connWriteMessage msg;;
           match err with
           | Some e => closeChannel [e]
           | None => outLoop writes'
           end
       end)
      (if decide (Z.of_nat (length (out (chan s))) > queueBufferSize `quot` 2)%Z
       then mkState (chan s) ({[ self (chan s) ]} ∪ overflooded s)
                    (trace s ++ [EvStoreOverflow (self (chan s))])
       else mkState (chan s) (overflooded s ∖ {[ self (chan s) ]})
                    (trace s ++ [EvDeleteOverflooded (self (chan s))])).
Proof.
  intros Hd. rewrite outLoop_unfold.
  unfold mbind at 1, M_bind at 1, len_out at 1.
  case_decide as Hov; [lia|].
  unfold mbind at 1, M_bind at 1.
  by case_decide; go_unfold.
Qed.

(** C3.  One pass of the Writer Loop, started with [d] strings queued and
    capacity [C = queueBufferSize]: when [d >= C-1] the loop ends with the
    result and the effects of [closeChannel(c, m, ErrorSocketOverflood)]
    and nothing more (nothing is written to the transport); when
    [C/2 < d < C-1] the session is stored in [overflooded], and when
    [d <= C/2] it is deleted from it; only after that does the loop
    receive from the queue, and when what it receives is the terminal
    sentinel it returns [nil] without a call of [WriteMessage]; any other
    string is written to the transport after the receive; on an empty
    queue the loop waits in the receive. *)
Theorem outLoop_iteration (writes : list (option error)) (s : State) :
  let d := Z.of_nat (length (out (chan s))) in
  let C := queueBufferSize in
  ((d >= C - 1)%Z ->
     exists s', closeChannel [ErrorSocketOverflood] s = Val None s'
                /\ outLoop writes s = Val None s')
  /\ ((C `quot` 2 < d < C - 1)%Z -> forall q,
        out (chan s) = CloseMessage :: q ->
        outLoop writes s
        = Val None
            {| chan := {| self := self (chan s); out := q;
                          header := header (chan s); alive := alive (chan s) |};
               overflooded := {[ self (chan s) ]} ∪ overflooded s;
               trace := trace s ++ [EvStoreOverflow (self (chan s));
                                    EvRecv CloseMessage] |})
  /\ ((d <= C `quot` 2)%Z -> forall q,
        out (chan s) = CloseMessage :: q ->
        outLoop writes s
        = Val None
            {| chan := {| self := self (chan s); out := q;
                          header := header (chan s); alive := alive (chan s) |};
               overflooded := overflooded s ∖ {[ self (chan s) ]};
               trace := trace s ++ [EvDeleteOverflooded (self (chan s));
                                    EvRecv CloseMessage] |})
  /\ ((d < C - 1)%Z -> forall msg q err writes',
        out (chan s) = msg :: q -> msg <> CloseMessage ->
        writes = err :: writes' ->
        outLoop writes s
        = (match err with
           | Some e => closeChannel [e]
           | None => outLoop writes'
           end)
            {| chan := {| self := self (chan s); out := q;
                          header := header (chan s); alive := alive (chan s) |};
               overflooded :=
                 (if decide (d > C `quot` 2)%Z
                  then {[ self (chan s) ]} ∪ overflooded s
                  else overflooded s ∖ {[ self (chan s) ]});
               trace :=
                 trace s
                 ++ [if decide (d > C `quot` 2)%Z
                     then EvStoreOverflow (self (chan s))
                     else EvDeleteOverflooded (self (chan s));
                     EvRecv msg; EvWriteMessage msg] |})
  /\ (out (chan s) = [] ->
        outLoop writes s
        = Blocks OnRecv
            {| chan := chan s;
               overflooded := overflooded s ∖ {[ self (chan s) ]};
               trace := trace s ++ [EvDeleteOverflooded (self (chan s))] |}).
Proof.
  intros d C. subst d C. repeat split.
  - intros Hd. exists (if alive (chan s) then closedState s else s).
    split; [apply closeChannel_returns|].
    rewrite outLoop_unfold. unfold mbind at 1, M_bind at 1, len_out at 1.
    case_decide; [apply closeChannel_returns|lia].
  - intros [Hlo Hhi] q Hq. rewrite outLoop_below_bound by done.
    case_decide; [|lia]. unfold mbind, M_bind, recv. simpl. rewrite Hq.
    rewrite decide_True by done. go_unfold. by rewrite <- app_assoc.
  - intros Hd q Hq. rewrite half_queueBufferSize in Hd.
    rewrite outLoop_below_bound by (unfold queueBufferSize; lia).
    rewrite half_queueBufferSize.
    case_decide; [lia|]. unfold mbind, M_bind, recv. simpl. rewrite Hq.
    rewrite decide_True by done. go_unfold. by rewrite <- app_assoc.
  - intros Hd msg q err writes' Hq Hmsg ->. rewrite outLoop_below_bound by done.
    unfold mbind at 1, M_bind at 1, recv.
    case_decide; simpl; rewrite Hq; rewrite decide_False by done;
      go_unfold; by rewrite <- !app_assoc.
  - intros Hq.
    rewrite outLoop_below_bound
      by (rewrite Hq; unfold queueBufferSize; simpl; lia).
    case_decide as Hd; [rewrite Hq, half_queueBufferSize in Hd; simpl in Hd; lia|].
    unfold mbind, M_bind, recv. simpl. by rewrite Hq.
Qed.

(** ** [inLoop] *)

(** One pass of [inLoop] on a frame that is read and decoded without
    error: the [switch], then the next pass. *)
Lemma inLoop_step (pkg : string) (msg : Message)
    (reads : list (string * option error)) (s : State) :
  Decode pkg = (msg, None) ->
  inLoop ((pkg, None) :: reads) s = (inLoop_switch msg;; inLoop reads) s.
Proof.
  intros HD. simpl. unfold inLoop_iter. rewrite HD.
  unfold mbind, M_bind. by destruct (inLoop_switch msg s).
Qed.

(** C4, on the code.  When [c.conn.GetMessage()] returns an error, [inLoop]
    ends with the state that [closeChannel] leaves, and its result is the
    result of [closeChannel], which is [nil]: the read error is not its
    return value. *)
Theorem inLoop_read_error (pkg : string) (e : error)
    (reads : list (string * option error)) (s : State) :
  exists s', closeChannel [e] s = Val None s'
             /\ inLoop ((pkg, Some e) :: reads) s = Val None s'.
Proof.
  exists (if alive (chan s) then closedState s else s).
  split; [apply closeChannel_returns|].
  simpl. unfold inLoop_iter. unfold mbind, M_bind.
  by rewrite closeChannel_returns.
Qed.

(** The sibling path: when [protocol.Decode] fails, [inLoop] closes the
    channel and returns the error of the decoder. *)
Lemma inLoop_decode_error (pkg : string) (msg : Message) (e : error)
    (reads : list (string * option error)) (s : State) :
  Decode pkg = (msg, Some e) ->
  exists s', closeChannel [ErrorWrongPacket] s = Val None s'
             /\ inLoop ((pkg, None) :: reads) s = Val (Some e) s'.
Proof.
  intros HD. exists (if alive (chan s) then closedState s else s).
  split; [apply closeChannel_returns|].
  simpl. unfold inLoop_iter. rewrite HD. unfold mbind, M_bind.
  by rewrite closeChannel_returns.
Qed.

Lemma inLoop_switch_open (msg : Message) (a : ascii) (data : string) (s : State) :
  Type_ msg = MessageTypeOpen ->
  Source msg = String a data ->
  inLoop_switch msg s
  = ((if (Unmarshal data (header (chan s))).2 is Some _
      then closeChannel [ErrorWrongHeader];; mret tt
      else mret tt);;
     callLoopEvent OnConnection)
      (set_header (Unmarshal data (header (chan s))).1 s).
Proof.
  intros HT HS. unfold inLoop_switch. rewrite HT, HS.
  unfold mbind at 1, M_bind at 1, sliceFrom1.
  unfold mbind at 1, M_bind at 1, unmarshalHeader.
  by destruct (Unmarshal data (header (chan s))) as [h err].
Qed.

(** C6.  When the payload of an Open frame (the source without its first
    byte) fails to parse into the header, the Reader Loop runs
    [closeChannel(c, m, ErrorWrongHeader)] on the channel, whose header
    holds what the decoder left in it, and after that it still calls the
    connection notification, as the last effect of the frame. *)
Theorem inLoop_switch_open_parse_failure
    (msg : Message) (a : ascii) (data : string) (h : Header) (e : error) (s : State) :
  Type_ msg = MessageTypeOpen ->
  Source msg = String a data ->
  Unmarshal data (header (chan s)) = (h, Some e) ->
  exists s1,
    closeChannel [ErrorWrongHeader] (set_header h s) = Val None s1
    /\ inLoop_switch msg s
       = Val tt {| chan := chan s1;
                   overflooded := overflooded s1;
                   trace := trace s1 ++ [EvCallLoopEvent OnConnection] |}.
Proof.
  intros HT HS HU.
  exists (if alive (chan (set_header h s)) then closedState (set_header h s)
          else set_header h s).
  split; [apply closeChannel_returns|].
  rewrite (inLoop_switch_open msg a data s HT HS), HU. simpl.
  unfold mbind, M_bind. rewrite closeChannel_returns. by go_unfold.
Qed.

(** C8.  For a Ping frame the Reader Loop sends [protocol.PongMessage] on
    [out] once and changes nothing else: while the queue has room the
    state afterwards differs in that one string at the back of the queue
    (and the send in the trace), and on a full queue the loop waits in the
    send with the state as it was.  For a Pong frame it does nothing. *)
Theorem inLoop_switch_ping_pong (msg : Message) (s : State) :
  (Type_ msg = MessageTypePing ->
     inLoop_switch msg s
     = if decide (Z.of_nat (length (out (chan s))) < queueBufferSize)%Z
       then Val tt
              {| chan := {| self := self (chan s);
                            out := out (chan s) ++ [PongMessage];
                            header := header (chan s);
                            alive := alive (chan s) |};
                 overflooded := overflooded s;
                 trace := trace s ++ [EvSend PongMessage] |}
       else Blocks (OnSend PongMessage) s)
  /\ (Type_ msg = MessageTypePong -> inLoop_switch msg s = Val tt s).
Proof.
  split; intros HT; unfold inLoop_switch; rewrite HT; [|done].
  unfold send. by case_decide.
Qed.

(** C10.  For an Open message whose source is the empty string the slice
    [msg.Source[1:]] is out of range and handling the frame panics with
    the state untouched; only with a non-empty source does the handling
    reach [json.Unmarshal], and then it completes. *)
Theorem inLoop_switch_open_empty_source (msg : Message) (s : State) :
  Type_ msg = MessageTypeOpen ->
  (Source msg = EmptyString -> inLoop_switch msg s = Panics s)
  /\ (forall a data, Source msg = String a data ->
        exists s', inLoop_switch msg s = Val tt s'
                   /\ header (chan s') = (Unmarshal data (header (chan s))).1)
  /\ (inLoop_switch msg s = Panics s <-> Source msg = EmptyString).
Proof.
  intros HT.
  assert (Hne : forall a data, Source msg = String a data ->
            exists s', inLoop_switch msg s = Val tt s'
                       /\ header (chan s') = (Unmarshal data (header (chan s))).1).
  { intros a data HS. rewrite (inLoop_switch_open msg a data s HT HS).
    destruct (Unmarshal data (header (chan s))) as [h [e|]]; simpl.
    - unfold mbind, M_bind. rewrite closeChannel_returns.
      eexists; split; [by go_unfold|].
      go_unfold. by destruct (alive (chan s)).
    - eexists; split; [by go_unfold|done]. }
  assert (He : Source msg = EmptyString -> inLoop_switch msg s = Panics s).
  { intros HS. unfold inLoop_switch. by rewrite HT, HS. }
  split; [done|]. split; [done|]. split; [|done].
  destruct (Source msg) as [|a data] eqn:HS; [done|].
  destruct (Hne a data eq_refl) as (s' & -> & _). done.
Qed.

(** At the level of the loop: a frame that decodes to an Open message with
    an empty source makes [inLoop] panic. *)
Lemma inLoop_open_empty_source (pkg : string) (msg : Message)
    (reads : list (string * option error)) (s : State) :
  Decode pkg = (msg, None) ->
  Type_ msg = MessageTypeOpen ->
  Source msg = EmptyString ->
  inLoop ((pkg, None) :: reads) s = Panics s.
Proof.
  intros HD HT HS. simpl. unfold inLoop_iter. rewrite HD.
  unfold mbind, M_bind, inLoop_switch. by rewrite HT, HS.
Qed.

(** ** [pinger] *)

(** C9.  On a tick, [pinger] returns without touching the state when the
    liveness flag is false; otherwise it sends [protocol.PingMessage] on
    [out] once and goes on to wait for the next tick: while the queue has
    room exactly that one string is added at the back of the queue, and on
    a full queue the timer waits in the send. *)
Theorem pinger_tick (ticks : nat) (s : State) :
  (alive (chan s) = false -> pinger (S ticks) s = Val tt s)
  /\ (alive (chan s) = true ->
      (Z.of_nat (length (out (chan s))) < queueBufferSize)%Z ->
      pinger (S ticks) s
      = pinger ticks
          {| chan := {| self := self (chan s);
                        out := out (chan s) ++ [PingMessage];
                        header := header (chan s);
                        alive := alive (chan s) |};
             overflooded := overflooded s;
             trace := trace s ++ [EvSend PingMessage] |})
  /\ (alive (chan s) = true ->
      ~ (Z.of_nat (length (out (chan s))) < queueBufferSize)%Z ->
      pinger (S ticks) s = Blocks (OnSend PingMessage) s).
Proof.
  repeat split; intros Ha; simpl; unfold mbind, M_bind, IsAlive; rewrite Ha; simpl.
  - done.
  - intros Hroom. unfold send. rewrite decide_True by done.
    go_unfold. by rewrite ?Ha.
  - intros Hfull. unfold send. by rewrite decide_False by done.
Qed.

(** ** The header *)

Lemma keepsHeader_ret {A} (a : A) : keepsHeader (mret a : M A).
Proof. by intros s. Qed.

Lemma keepsHeader_bind {A B} (m : M A) (k : A -> M B) :
  keepsHeader m -> (forall a, keepsHeader (k a)) -> keepsHeader (m ≫= k).
Proof.
  intros Hm Hk s. unfold mbind, M_bind. specialize (Hm s).
  destruct (m s) as [a s'|b s'|s']; simpl in *; [|done..].
  by rewrite Hk.
Qed.

Lemma keepsHeader_block {A} (b : Blocked) : keepsHeader (block b : M A).
Proof. by intros s. Qed.

Lemma keepsHeader_IsAlive : keepsHeader IsAlive.
Proof. by intros s. Qed.

Lemma keepsHeader_setAliveValue (v : bool) : keepsHeader (setAliveValue v).
Proof. by intros s. Qed.

Lemma keepsHeader_len_out : keepsHeader len_out.
Proof. by intros s. Qed.

Lemma keepsHeader_send (msg : string) : keepsHeader (send msg).
Proof. intros s. unfold send. by case_decide. Qed.

Lemma keepsHeader_recv : keepsHeader recv.
Proof. intros s. unfold recv. by destruct (out (chan s)). Qed.

Lemma keepsHeader_connClose : keepsHeader connClose.
Proof. by intros s. Qed.

Lemma keepsHeader_connWriteMessage (msg : string) : keepsHeader (connWriteMessage msg).
Proof. by intros s. Qed.

Lemma keepsHeader_callLoopEvent (ev : EventName) : keepsHeader (callLoopEvent ev).
Proof. by intros s. Qed.

Lemma keepsHeader_go (msg : Message) : keepsHeader (goProcessIncomingMessage msg).
Proof. by intros s. Qed.

Lemma keepsHeader_deleteOverflooded : keepsHeader deleteOverflooded.
Proof. by intros s. Qed.

Lemma keepsHeader_storeOverflow : keepsHeader storeOverflow.
Proof. by intros s. Qed.

#[local] Hint Resolve keepsHeader_ret keepsHeader_block keepsHeader_IsAlive
  keepsHeader_setAliveValue keepsHeader_len_out keepsHeader_send
  keepsHeader_recv keepsHeader_connClose keepsHeader_connWriteMessage
  keepsHeader_callLoopEvent keepsHeader_go keepsHeader_deleteOverflooded
  keepsHeader_storeOverflow : go.

Ltac keeps_header :=
  repeat first
    [ solve [auto with go]
    | apply keepsHeader_bind; [|intros ?]
    | case_decide
    | case_match ].

Lemma keepsHeader_cleanOut (n : nat) : keepsHeader (cleanOut n).
Proof. induction n as [|n IH]; simpl; keeps_header. Qed.

Lemma keepsHeader_closeChannel (args : list error) : keepsHeader (closeChannel args).
Proof.
  unfold closeChannel. pose proof keepsHeader_cleanOut. keeps_header.
Qed.

Lemma keepsHeader_outLoop (writes : list (option error)) : keepsHeader (outLoop writes).
Proof.
  pose proof keepsHeader_closeChannel.
  induction writes as [|err writes IH]; rewrite outLoop_unfold; keeps_header.
Qed.

Lemma keepsHeader_pinger (ticks : nat) : keepsHeader (pinger ticks).
Proof. induction ticks as [|ticks IH]; simpl; keeps_header. Qed.

Lemma keepsHeader_inLoop_switch (msg : Message) :
  Type_ msg <> MessageTypeOpen -> keepsHeader (inLoop_switch msg).
Proof.
  intros HT. unfold inLoop_switch.
  destruct (Type_ msg); [done|keeps_header..].
Qed.

(** C5 (as amended).  The header is written by the handling of an Open
    frame and by nothing else: [closeChannel], the Writer Loop, the
    keepalive timer and the handling of every frame that is not an Open
    frame leave it as it was, whatever the outcome of the run; the handling
    of an Open frame with a non-empty source leaves in it what
    [json.Unmarshal], run on the payload over the header as it was, has
    stored, whether or not the parse succeeded and whether or not an
    earlier frame had set it. *)
Theorem header_written_by_open_only :
  (forall args s, header (chan (final (closeChannel args s))) = header (chan s))
  /\ (forall writes s, header (chan (final (outLoop writes s))) = header (chan s))
  /\ (forall ticks s, header (chan (final (pinger ticks s))) = header (chan s))
  /\ (forall msg s, Type_ msg <> MessageTypeOpen ->
        header (chan (final (inLoop_switch msg s))) = header (chan s))
  /\ (forall msg a data s,
        Type_ msg = MessageTypeOpen -> Source msg = String a data ->
        header (chan (final (inLoop_switch msg s)))
        = (Unmarshal data (header (chan s))).1).
Proof.
  split; [apply keepsHeader_closeChannel|].
  split; [apply keepsHeader_outLoop|].
  split; [apply keepsHeader_pinger|].
  split; [intros msg s HT; by apply keepsHeader_inLoop_switch|].
  intros msg a data s HT HS.
  rewrite (inLoop_switch_open msg a data s HT HS).
  pose proof keepsHeader_closeChannel.
  transitivity (header (chan (set_header (Unmarshal data (header (chan s))).1 s))); [|done].
  generalize (set_header (Unmarshal data (header (chan s))).1 s).
  change (keepsHeader
            ((if (Unmarshal data (header (chan s))).2 is Some _
              then closeChannel [ErrorWrongHeader];; mret tt else mret tt);;
             callLoopEvent OnConnection)).
  keeps_header.
Qed.

(** ** Invariants of the runs *)

Lemma preserves_bind {A B} (R : State -> State -> Prop)
    `{!Reflexive R, !Transitive R} (m : M A) (k : A -> M B) :
  preserves R m -> (forall a, preserves R (k a)) -> preserves R (m ≫= k).
Proof.
  intros Hm Hk s. unfold mbind, M_bind. specialize (Hm s).
  destruct (m s) as [a s'|b s'|s']; simpl in *; [|done..].
  etrans; [exact Hm|apply Hk].
Qed.

Lemma occurrences_app (e : Event) (t1 t2 : list Event) :
  occurrences e (t1 ++ t2) = occurrences e t1 + occurrences e t2.
Proof. unfold occurrences. by rewrite filter_app, length_app. Qed.

Lemma occurrences_recvs (e : Event) (q : list string) :
  (forall msg, e <> EvRecv msg) -> occurrences e (map EvRecv q) = 0.
Proof.
  intros He. unfold occurrences.
  induction q as [|x q IH]; [done|]. simpl.
  rewrite filter_cons_False; [done|]. intros Heq. by apply (He x).
Qed.

Global Instance tornDownOnce_refl : Reflexive tornDownOnce.
Proof.
  intros s. split; [done|]. exists []. rewrite app_nil_r.
  by destruct (alive (chan s)).
Qed.

Global Instance tornDownOnce_trans : Transitive tornDownOnce.
Proof.
  intros s1 s2 s3 [H12 (t1 & Ht1 & Hon1 & Hc1 & Hf1 & Hd1)]
                  [H23 (t2 & Ht2 & Hon2 & Hc2 & Hf2 & Hd2)].
  split; [auto|]. exists (t1 ++ t2).
  rewrite Ht2, Ht1, <- app_assoc, !occurrences_app.
  rewrite Hon1, Hon2, Hc1, Hc2, Hf1, Hf2, Hd1, Hd2.
  split; [done|]. split; [done|].
  destruct (alive (chan s1)) eqn:E1, (alive (chan s2)) eqn:E2,
    (alive (chan s3)) eqn:E3; simpl;
    first [done | specialize (H12 eq_refl); congruence
          | specialize (H23 eq_refl); congruence].
Qed.

(** A step that leaves the flag alone and adds at most one event, which is
    none of those that [tornDownOnce] counts. *)
Lemma tornDownOnce_step (s s' : State) (t : list Event) :
  alive (chan s') = alive (chan s) ->
  trace s' = trace s ++ t ->
  occurrences (EvSetAlive true) t = 0 ->
  occurrences EvConnClose t = 0 ->
  occurrences (EvSetAlive false) t = 0 ->
  occurrences (EvCallLoopEvent OnDisconnection) t = 0 ->
  tornDownOnce s s'.
Proof.
  intros Ha Ht H1 H2 H3 H4. split; [by rewrite Ha|].
  exists t. rewrite Ha, H1, H2, H3, H4.
  by destruct (alive (chan s)).
Qed.

Ltac torn_step t :=
  simpl; apply (tornDownOnce_step _ _ t);
  [done|simpl; by rewrite ?app_nil_r|done..].

Lemma tornDownOnce_ret {A} (a : A) : preserves tornDownOnce (mret a : M A).
Proof. intros s. reflexivity. Qed.

Lemma tornDownOnce_block {A} (b : Blocked) : preserves tornDownOnce (block b : M A).
Proof. intros s. reflexivity. Qed.

Lemma tornDownOnce_IsAlive : preserves tornDownOnce IsAlive.
Proof. intros s. reflexivity. Qed.

Lemma tornDownOnce_len_out : preserves tornDownOnce len_out.
Proof. intros s. reflexivity. Qed.

Lemma tornDownOnce_send (msg : string) : preserves tornDownOnce (send msg).
Proof.
  intros s. unfold send. case_decide; [|reflexivity].
  torn_step [EvSend msg].
Qed.

Lemma tornDownOnce_recv : preserves tornDownOnce recv.
Proof.
  intros s. unfold recv. destruct (out (chan s)) as [|msg q]; [reflexivity|].
  torn_step [EvRecv msg].
Qed.

Lemma tornDownOnce_connWriteMessage (msg : string) :
  preserves tornDownOnce (connWriteMessage msg).
Proof. intros s. torn_step [EvWriteMessage msg]. Qed.

Lemma tornDownOnce_callLoopEvent_connection :
  preserves tornDownOnce (callLoopEvent OnConnection).
Proof. intros s. torn_step [EvCallLoopEvent OnConnection]. Qed.

Lemma tornDownOnce_go (msg : Message) :
  preserves tornDownOnce (goProcessIncomingMessage msg).
Proof. intros s. torn_step [EvGo msg]. Qed.

Lemma tornDownOnce_deleteOverflooded : preserves tornDownOnce deleteOverflooded.
Proof. intros s. torn_step [EvDeleteOverflooded (self (chan s))]. Qed.

Lemma tornDownOnce_storeOverflow : preserves tornDownOnce storeOverflow.
Proof. intros s. torn_step [EvStoreOverflow (self (chan s))]. Qed.

Lemma tornDownOnce_sliceFrom1 (src : string) : preserves tornDownOnce (sliceFrom1 src).
Proof. intros s. unfold sliceFrom1. destruct src; reflexivity. Qed.

Lemma tornDownOnce_unmarshalHeader (data : string) :
  preserves tornDownOnce (unmarshalHeader data).
Proof.
  intros s. unfold unmarshalHeader.
  destruct (Unmarshal data (header (chan s))) as [h err].
  torn_step (@nil Event).
Qed.

Lemma tornDownOnce_closeChannel (args : list error) :
  preserves tornDownOnce (closeChannel args).
Proof.
  intros s. rewrite closeChannel_returns.
  destruct (alive (chan s)) eqn:Ha; [|reflexivity].
  split; [by rewrite Ha|]. eexists. split; [reflexivity|].
  rewrite !occurrences_app, !occurrences_recvs by done.
  rewrite Ha. done.
Qed.

#[local] Hint Resolve tornDownOnce_ret tornDownOnce_block tornDownOnce_IsAlive
  tornDownOnce_len_out tornDownOnce_send tornDownOnce_recv
  tornDownOnce_connWriteMessage tornDownOnce_callLoopEvent_connection
  tornDownOnce_go tornDownOnce_deleteOverflooded tornDownOnce_storeOverflow
  tornDownOnce_sliceFrom1 tornDownOnce_unmarshalHeader
  tornDownOnce_closeChannel : torn.

Ltac preserves_tac db :=
  repeat first
    [ solve [auto with db]
    | apply preserves_bind; [apply _|apply _| |intros ?]
    | case_decide
    | case_match ].

Lemma tornDownOnce_inLoop_switch (msg : Message) :
  preserves tornDownOnce (inLoop_switch msg).
Proof. unfold inLoop_switch. preserves_tac torn. Qed.

Lemma tornDownOnce_inLoop (reads : list (string * option error)) :
  preserves tornDownOnce (inLoop reads).
Proof.
  pose proof tornDownOnce_inLoop_switch.
  induction reads as [|[pkg err] reads IH]; simpl; [auto with torn|].
  unfold inLoop_iter. destruct (Decode pkg) as [msg derr].
  preserves_tac torn.
Qed.

Lemma tornDownOnce_outLoop (writes : list (option error)) :
  preserves tornDownOnce (outLoop writes).
Proof.
  induction writes as [|err writes IH]; rewrite outLoop_unfold; preserves_tac torn.
Qed.

Lemma tornDownOnce_pinger (ticks : nat) : preserves tornDownOnce (pinger ticks).
Proof. induction ticks as [|ticks IH]; simpl; preserves_tac torn. Qed.

Lemma tornDownOnce_staysDown (s s' : State) :
  tornDownOnce s s' -> staysDown s s'.
Proof.
  intros [Hdead (t & Ht & Hon & Hc & Hf & Hd)]. exists t.
  split; [done|]. split; [done|]. intros Ha. rewrite Ha in Hc, Hf, Hd.
  split; [by apply Hdead|done].
Qed.

(** X1.  The loops never revive a session.  No run of the Reader Loop, of
    the Writer Loop or of the keepalive loop sets the liveness flag to
    true; and a loop that starts on a session whose flag is false leaves
    it false and does none of the teardown: it does not close the
    transport, does not clear the flag and does not fire the disconnect
    notification. *)
Theorem loops_never_revive :
  (forall reads s, staysDown s (final (inLoop reads s)))
  /\ (forall writes s, staysDown s (final (outLoop writes s)))
  /\ (forall ticks s, staysDown s (final (pinger ticks s))).
Proof.
  split; [intros reads s; apply tornDownOnce_staysDown, tornDownOnce_inLoop|].
  split; [intros writes s; apply tornDownOnce_staysDown, tornDownOnce_outLoop|].
  intros ticks s. apply tornDownOnce_staysDown, tornDownOnce_pinger.
Qed.

Global Instance othersUntouched_refl : Reflexive othersUntouched.
Proof. by intros s. Qed.

Global Instance othersUntouched_trans : Transitive othersUntouched.
Proof.
  intros s1 s2 s3 [Hs12 H12] [Hs23 H23]. split; [congruence|].
  intros p Hp. rewrite H23 by congruence. by apply H12.
Qed.

Lemma othersUntouched_ret {A} (a : A) : preserves othersUntouched (mret a : M A).
Proof. by intros s. Qed.

Lemma othersUntouched_block {A} (b : Blocked) :
  preserves othersUntouched (block b : M A).
Proof. by intros s. Qed.

Lemma othersUntouched_IsAlive : preserves othersUntouched IsAlive.
Proof. by intros s. Qed.

Lemma othersUntouched_setAliveValue (v : bool) :
  preserves othersUntouched (setAliveValue v).
Proof. by intros s. Qed.

Lemma othersUntouched_len_out : preserves othersUntouched len_out.
Proof. by intros s. Qed.

Lemma othersUntouched_send (msg : string) : preserves othersUntouched (send msg).
Proof. intros s. unfold send. by case_decide. Qed.

Lemma othersUntouched_recv : preserves othersUntouched recv.
Proof. intros s. unfold recv. by destruct (out (chan s)). Qed.

Lemma othersUntouched_connClose : preserves othersUntouched connClose.
Proof. by intros s. Qed.

Lemma othersUntouched_connWriteMessage (msg : string) :
  preserves othersUntouched (connWriteMessage msg).
Proof. by intros s. Qed.

Lemma othersUntouched_callLoopEvent (ev : EventName) :
  preserves othersUntouched (callLoopEvent ev).
Proof. by intros s. Qed.

Lemma othersUntouched_go (msg : Message) :
  preserves othersUntouched (goProcessIncomingMessage msg).
Proof. by intros s. Qed.

Lemma othersUntouched_deleteOverflooded : preserves othersUntouched deleteOverflooded.
Proof.
  intros s. split; [done|]. intros p Hp. simpl.
  rewrite elem_of_difference, elem_of_singleton.
  split; [by intros [? ?]|by intros ?].
Qed.

Lemma othersUntouched_storeOverflow : preserves othersUntouched storeOverflow.
Proof.
  intros s. split; [done|]. intros p Hp. simpl.
  rewrite elem_of_union, elem_of_singleton.
  split; [by intros [?|?]|by right].
Qed.

Lemma othersUntouched_sliceFrom1 (src : string) :
  preserves othersUntouched (sliceFrom1 src).
Proof. intros s. unfold sliceFrom1. by destruct src. Qed.

Lemma othersUntouched_unmarshalHeader (data : string) :
  preserves othersUntouched (unmarshalHeader data).
Proof.
  intros s. unfold unmarshalHeader.
  by destruct (Unmarshal data (header (chan s))).
Qed.

#[local] Hint Resolve othersUntouched_ret othersUntouched_block
  othersUntouched_IsAlive othersUntouched_setAliveValue othersUntouched_len_out
  othersUntouched_send othersUntouched_recv othersUntouched_connClose
  othersUntouched_connWriteMessage othersUntouched_callLoopEvent
  othersUntouched_go othersUntouched_deleteOverflooded
  othersUntouched_storeOverflow othersUntouched_sliceFrom1
  othersUntouched_unmarshalHeader : others.

Lemma othersUntouched_cleanOut (n : nat) : preserves othersUntouched (cleanOut n).
Proof. induction n as [|n IH]; simpl; preserves_tac others. Qed.

Lemma othersUntouched_closeChannel (args : list error) :
  preserves othersUntouched (closeChannel args).
Proof.
  unfold closeChannel. pose proof othersUntouched_cleanOut. preserves_tac others.
Qed.

Lemma othersUntouched_inLoop (reads : list (string * option error)) :
  preserves othersUntouched (inLoop reads).
Proof.
  pose proof othersUntouched_closeChannel.
  induction reads as [|[pkg err] reads IH]; simpl; [auto with others|].
  unfold inLoop_iter, inLoop_switch. destruct (Decode pkg) as [msg derr].
  preserves_tac others.
Qed.

Lemma othersUntouched_outLoop (writes : list (option error)) :
  preserves othersUntouched (outLoop writes).
Proof.
  pose proof othersUntouched_closeChannel.
  induction writes as [|err writes IH]; rewrite outLoop_unfold;
    preserves_tac others.
Qed.

Lemma othersUntouched_pinger (ticks : nat) : preserves othersUntouched (pinger ticks).
Proof. induction ticks as [|ticks IH]; simpl; preserves_tac others. Qed.

(** X2.  Whatever [closeChannel] and the three loops do to [overflooded],
    they do it to the entry of their own channel: in every run, from any
    state, every other channel is in [overflooded] afterwards exactly if
    it was in it before. *)
Theorem overflooded_of_others_untouched :
  (forall args s, othersUntouched s (final (closeChannel args s)))
  /\ (forall reads s, othersUntouched s (final (inLoop reads s)))
  /\ (forall writes s, othersUntouched s (final (outLoop writes s)))
  /\ (forall ticks s, othersUntouched s (final (pinger ticks s))).
Proof.
  split; [exact othersUntouched_closeChannel|].
  split; [exact othersUntouched_inLoop|].
  split; [exact othersUntouched_outLoop|exact othersUntouched_pinger].
Qed.

(** ** How the loops end *)

Lemma closeChannel_leaves_dead (s : State) :
  alive (chan (if alive (chan s) then closedState s else s)) = false.
Proof. by destruct (alive (chan s)) eqn:Ha. Qed.

(** X3.  The Writer Loop never returns an error and never panics: from any
    state and whatever [WriteMessage] answers, it either returns [nil], or
    waits in the receive on an empty queue, or waits in [WriteMessage].
    When it returns, the session is closed (the liveness flag is false)
    unless a string equal to [protocol.CloseMessage] was on the queue when
    it started. *)
Theorem outLoop_outcomes (writes : list (option error)) :
  forall s,
    match outLoop writes s with
    | Val r s' =>
        r = None /\ (alive (chan s') = false \/ CloseMessage ∈ out (chan s))
    | Blocks b s' =>
        (b = OnRecv /\ out (chan s') = []) \/ (exists msg, b = OnWriteMessage msg)
    | Panics _ => False
    end.
Proof.
  induction writes as [|err writes IH]; intros s;
    (destruct (decide (Z.of_nat (length (out (chan s))) < queueBufferSize - 1)%Z)
      as [Hd|Hd];
     [|rewrite outLoop_unfold; unfold mbind at 1, M_bind at 1, len_out at 1;
       rewrite decide_True by lia; rewrite closeChannel_returns;
       split; [done|]; left; apply closeChannel_leaves_dead]);
    rewrite outLoop_below_bound by done;
    match goal with |- context [(_ ≫= _) ?st] => set (s0 := st) end;
    (assert (Hq0 : out (chan s0) = out (chan s)) by (unfold s0; by case_decide));
    clearbody s0; unfold mbind at 1, M_bind at 1, recv; rewrite Hq0;
    (destruct (out (chan s)) as [|msg q] eqn:Hq; simpl; [by left|]);
    (case_decide as Hm; simpl; [subst; split; [done|]; right; left|]).
  - right. by eexists.
  - unfold mbind, M_bind, connWriteMessage. destruct err as [e|].
    + rewrite closeChannel_returns. split; [done|]. left.
      apply closeChannel_leaves_dead.
    + specialize (IH (emit (EvWriteMessage msg) (emit (EvRecv msg) (set_out q s0)))).
      destruct (outLoop writes _) as [r s'|b s'|s']; [|done..].
      destruct IH as [-> [Hdead|Hin]]; (split; [done|]); [by left|].
      right. simpl in Hin. by right.
Qed.


Lemma inLoop_switch_ends (msg : Message) (s : State) :
  match inLoop_switch msg s with
  | Val _ _ => True
  | Blocks b _ => b = OnSend PongMessage
  | Panics _ => Type_ msg = MessageTypeOpen /\ Source msg = EmptyString
  end.
Proof.
  unfold inLoop_switch. destruct (Type_ msg) eqn:HT; try done.
  - destruct (Source msg) as [|a data] eqn:HS; [done|].
    unfold mbind at 1, M_bind at 1, sliceFrom1.
    unfold mbind at 1, M_bind at 1, unmarshalHeader.
    destruct (Unmarshal data (header (chan s))) as [h [e|]]; [|done].
    unfold mbind, M_bind. by rewrite closeChannel_returns.
  - unfold send. by case_decide.
Qed.

(** X4.  How a run of the Reader Loop can return or panic, from any state
    and for any sequence of answers of [GetMessage].  It returns [nil]
    only after a read error, and an error only after a frame that the
    codec could not decode, the error being the one of the codec; in both
    cases the liveness flag is false when it returns.  It panics only on a
    frame decoded to an Open message with an empty source. *)
Theorem inLoop_outcomes (reads : list (string * option error)) (s : State) :
  match inLoop reads s with
  | Val None s' =>
      alive (chan s') = false /\ exists pkg e, (pkg, Some e) ∈ reads
  | Val (Some e) s' =>
      alive (chan s') = false
      /\ exists pkg msg, (pkg, None) ∈ reads /\ Decode pkg = (msg, Some e)
  | Blocks _ _ => True
  | Panics _ =>
      exists pkg msg,
        (pkg, None) ∈ reads /\ Decode pkg = (msg, None)
        /\ Type_ msg = MessageTypeOpen /\ Source msg = EmptyString
  end.
Proof.
  revert s. induction reads as [|[pkg [e|]] reads IH]; intros s.
  - done.
  - simpl. unfold inLoop_iter, mbind, M_bind. rewrite closeChannel_returns.
    split; [apply closeChannel_leaves_dead|]. exists pkg, e. left.
  - simpl. unfold inLoop_iter. destruct (Decode pkg) as [msg [e|]] eqn:HD.
    + unfold mbind, M_bind. rewrite closeChannel_returns.
      split; [apply closeChannel_leaves_dead|]. exists pkg, msg.
      split; [left|done].
    + unfold mbind, M_bind. pose proof (inLoop_switch_ends msg s) as Hsw.
      destruct (inLoop_switch msg s) as [[] s1|b s1|s1].
      * specialize (IH s1). unfold mret, M_ret. simpl.
        destruct (inLoop reads s1) as [[e|] s'|b s'|s'].
        -- destruct IH as (Ha & p & m & Hin & Hp). split; [done|].
           exists p, m. split; [by right|done].
        -- destruct IH as (Ha & p & e' & Hin). split; [done|].
           exists p, e'. by right.
        -- done.
        -- destruct IH as (p & m & Hin & Hp). exists p, m. split; [by right|done].
      * done.
      * destruct Hsw as [HT HS]. exists pkg, msg. split; [left|done].
Qed.

(** ** What the Writer Loop writes *)

Lemma written_app (t1 t2 : list Event) : written (t1 ++ t2) = written t1 ++ written t2.
Proof. apply omap_app. Qed.

Lemma written_recvs (q : list string) : written (map EvRecv q) = [].
Proof. by induction q. Qed.

(** One pass of [outLoop] below the overflow bound, up to the receive: the
    state is the one at the start but for the entry of the channel in
    [overflooded] and the event of the store or of the delete. *)
Lemma outLoop_pass (writes : list (option error)) (s : State) :
  (Z.of_nat (length (out (chan s))) < queueBufferSize - 1)%Z ->
  exists ev r,
    written [ev] = []
    /\ (self (chan s) ∈ r
        <-> (Z.of_nat (length (out (chan s))) > queueBufferSize `quot` 2)%Z)
    /\ outLoop writes s
       = (msg ← recv;
          if decide (msg = CloseMessage) then mret None
          else
            match writes with
            | [] => block (OnWriteMessage msg)
            | err :: writes' =>
                connWriteMessage msg;;
                match err with
                | Some e => closeChannel [e]
                | None => outLoop writes'
                end
            end) (mkState (chan s) r (trace s ++ [ev])).
Proof.
  intros Hd. rewrite (outLoop_below_bound writes s Hd). case_decide as Hh.
  - exists (EvStoreOverflow (self (chan s))), ({[ self (chan s) ]} ∪ overflooded s).
    split; [done|]. split; [|done].
    rewrite elem_of_union, elem_of_singleton. split; [done|by left].
  - exists (EvDeleteOverflooded (self (chan s))), (overflooded s ∖ {[ self (chan s) ]}).
    split; [done|]. split; [|done].
    rewrite elem_of_difference, elem_of_singleton. split; [by intros [_ ?]|done].
Qed.

(** X5.  The Writer Loop drains the queue in order.  When the queue holds
    the strings [q], none of them the sentinel, then the sentinel, then
    [rest], with fewer than [queueBufferSize - 1] strings in all, and
    [WriteMessage] succeeds for each string of [q], the loop returns [nil]
    having written exactly the strings of [q] to the transport, in the
    order of the queue; [rest] is what is left on the queue, the liveness
    flag is as it was, and the session is in [overflooded] afterwards
    exactly if more than [queueBufferSize/2] strings were queued when the
    sentinel was received. *)
Theorem outLoop_writes_in_queue_order
    (q rest : list string) (writes : list (option error)) (s : State) :
  out (chan s) = q ++ CloseMessage :: rest ->
  CloseMessage ∉ q ->
  (Z.of_nat (length (out (chan s))) < queueBufferSize - 1)%Z ->
  exists s',
    outLoop (replicate (length q) None ++ writes) s = Val None s'
    /\ out (chan s') = rest
    /\ written (trace s') = written (trace s) ++ q
    /\ alive (chan s') = alive (chan s)
    /\ (self (chan s) ∈ overflooded s'
        <-> (Z.of_nat (S (length rest)) > queueBufferSize `quot` 2)%Z).
Proof.
  revert s. induction q as [|x q IH]; intros s Hq Hnotin Hd.
  - simpl. destruct (outLoop_pass writes s Hd) as (ev & r & Hev & Hr & ->).
    unfold mbind, M_bind, recv. simpl. rewrite Hq. simpl.
    rewrite decide_True by done. eexists. split; [reflexivity|]. simpl.
    split; [done|]. split.
    { rewrite !written_app, Hev. simpl. by rewrite !app_nil_r. }
    split; [done|]. by rewrite Hr, Hq.
  - destruct (outLoop_pass (replicate (length (x :: q)) (None : option error) ++ writes)
                s Hd) as (ev & r & Hev & Hr & ->).
    apply not_elem_of_cons in Hnotin as [Hx Hnotin].
    unfold mbind at 1, M_bind at 1, recv. simpl. rewrite Hq. simpl.
    rewrite decide_False by done.
    unfold mbind, M_bind, connWriteMessage.
    set (s1 := emit (EvWriteMessage x) _).
    destruct (IH s1) as (s' & Hrun & Hout & Hw & Ha & Hreg); [done|done| |].
    { simpl. rewrite Hq in Hd. simpl in Hd. lia. }
    exists s'. split; [exact Hrun|]. split; [done|]. split; [|done].
    rewrite Hw. unfold s1, emit, set_out. cbn [trace].
    rewrite !written_app, Hev. simpl. by rewrite !app_nil_r, <- app_assoc.
Qed.

Lemma written_closing (s : State) :
  written (trace (closedState s)) = written (trace s).
Proof.
  unfold closedState. cbn [trace].
  rewrite !written_app, written_recvs. simpl. by rewrite app_nil_r.
Qed.

(** X6.  A write error closes the session and is not returned.  When the
    string at the front of the queue of a live session is not the sentinel,
    the queue is below the overflow bound, and [WriteMessage] fails on that
    string, the Writer Loop returns [nil]; the liveness flag is then false,
    the queue holds the sentinel and nothing else (what was queued behind
    the string is discarded, not written), and the session is not in
    [overflooded]. *)
Theorem outLoop_write_error
    (msg : string) (q : list string) (e : error)
    (writes : list (option error)) (s : State) :
  out (chan s) = msg :: q ->
  msg <> CloseMessage ->
  (Z.of_nat (length (out (chan s))) < queueBufferSize - 1)%Z ->
  alive (chan s) = true ->
  exists s',
    outLoop (Some e :: writes) s = Val None s'
    /\ alive (chan s') = false
    /\ out (chan s') = [CloseMessage]
    /\ (self (chan s) ∉ overflooded s')
    /\ written (trace s') = written (trace s) ++ [msg].
Proof.
  intros Hq Hmsg Hd Ha.
  destruct (outLoop_pass (Some e :: writes) s Hd) as (ev & r & Hev & Hr & ->).
  unfold mbind at 1, M_bind at 1, recv. simpl. rewrite Hq.
  rewrite decide_False by done.
  unfold mbind, M_bind, connWriteMessage.
  rewrite closeChannel_live by done.
  eexists. split; [reflexivity|]. split; [done|]. split; [done|].
  split.
  - simpl. rewrite elem_of_difference, elem_of_singleton. by intros [_ ?].
  - rewrite written_closing. unfold emit, set_out. cbn [trace].
    rewrite !written_app, Hev. simpl. by rewrite !app_nil_r.
Qed.

(** X7.  After [closeChannel] on a live session the Writer Loop stops on
    its next pass: it receives the sentinel and returns [nil], and nothing
    of what was queued is written to the transport; the queue is then
    empty, the flag false, and the session not in [overflooded]. *)
Theorem outLoop_after_closeChannel
    (args : list error) (writes : list (option error)) (s : State) :
  alive (chan s) = true ->
  exists s',
    (closeChannel args;; outLoop writes) s = Val None s'
    /\ out (chan s') = []
    /\ alive (chan s') = false
    /\ (self (chan s) ∉ overflooded s')
    /\ written (trace s') = written (trace s).
Proof.
  intros Ha. unfold mbind at 1, M_bind at 1. rewrite closeChannel_live by done.
  pose proof (written_closing s) as Hw.
  assert (Hout : out (chan (closedState s)) = [CloseMessage]) by done.
  assert (Hal : alive (chan (closedState s)) = false) by done.
  assert (Hself : self (chan (closedState s)) = self (chan s)) by done.
  revert Hw Hout Hal Hself. generalize (closedState s). intros c Hw Hout Hal Hself.
  assert (Hd : (Z.of_nat (length (out (chan c))) < queueBufferSize - 1)%Z)
    by (rewrite Hout; simpl; unfold queueBufferSize; lia).
  destruct (outLoop_pass writes c Hd) as (ev & r & Hev & Hr & ->).
  unfold mbind, M_bind, recv. simpl. rewrite Hout. rewrite decide_True by done.
  eexists. split; [reflexivity|]. simpl. split; [done|]. split; [done|]. split.
  - rewrite <- Hself, Hr, Hout, half_queueBufferSize. simpl. lia.
  - rewrite !written_app, Hev, Hw. simpl. by rewrite !app_nil_r.
Qed.



(** ** Whole runs of [pinger] and of [inLoop] *)

Lemma pinger_live_step (ticks : nat) (p : ChanPtr) (q : list string) (h : Header)
    (r : gset ChanPtr) (t : list Event) :
  (Z.of_nat (length q) < queueBufferSize)%Z ->
  pinger (S ticks) (mkState (mkChannel p q h true) r t)
  = pinger ticks (mkState (mkChannel p (q ++ [PingMessage]) h true) r
                          (t ++ [EvSend PingMessage])).
Proof.
  intros Hroom. simpl. unfold mbind, M_bind, IsAlive, send. simpl.
  by rewrite decide_True by done.
Qed.

Lemma pinger_until_tick (n : nat) :
  forall p q h r t,
    (Z.of_nat (length q + n) <= queueBufferSize)%Z ->
    pinger n (mkState (mkChannel p q h true) r t)
    = Blocks OnTick
        (mkState (mkChannel p (q ++ replicate n PingMessage) h true) r
                 (t ++ replicate n (EvSend PingMessage))).
Proof.
  induction n as [|n IH]; intros p q h r t Hroom.
  - simpl. by rewrite !app_nil_r.
  - rewrite pinger_live_step by lia.
    rewrite IH by (rewrite length_app; simpl; lia).
    by rewrite <- !app_assoc.
Qed.

Lemma pinger_until_full (k : nat) :
  forall n p q h r t,
    (Z.of_nat (length q + k) = queueBufferSize)%Z ->
    k < n ->
    pinger n (mkState (mkChannel p q h true) r t)
    = Blocks (OnSend PingMessage)
        (mkState (mkChannel p (q ++ replicate k PingMessage) h true) r
                 (t ++ replicate k (EvSend PingMessage))).
Proof.
  induction k as [|k IH]; intros n p q h r t Hfull Hn;
    (destruct n as [|n]; [lia|]).
  - simpl. unfold mbind, M_bind, IsAlive, send. simpl.
    rewrite decide_False by lia. by rewrite !app_nil_r.
  - rewrite pinger_live_step by lia.
    rewrite (IH n) by (rewrite ?length_app; simpl; lia).
    by rewrite <- !app_assoc.
Qed.

(** X9.  A run of the keepalive loop on a live session whose queue nobody
    drains.  While the queue has room for them, [n] ticks put exactly [n]
    pings at the back of the queue, in [n] sends, and the loop waits for
    the next tick; when the queue has room for [k] strings only and more
    than [k] ticks come, the loop puts [k] pings on the queue, which is
    then full, and waits in the send of the next one.  Nothing else
    changes: the loop does not close the session and does not touch
    [overflooded]. *)
Theorem pinger_fills_queue (n : nat) (s : State) :
  alive (chan s) = true ->
  ((Z.of_nat (length (out (chan s)) + n) <= queueBufferSize)%Z ->
     pinger n s
     = Blocks OnTick
         {| chan := {| self := self (chan s);
                       out := out (chan s) ++ replicate n PingMessage;
                       header := header (chan s);
                       alive := true |};
            overflooded := overflooded s;
            trace := trace s ++ replicate n (EvSend PingMessage) |})
  /\ (forall k,
        (Z.of_nat (length (out (chan s)) + k) = queueBufferSize)%Z ->
        k < n ->
        pinger n s
        = Blocks (OnSend PingMessage)
            {| chan := {| self := self (chan s);
                          out := out (chan s) ++ replicate k PingMessage;
                          header := header (chan s);
                          alive := true |};
               overflooded := overflooded s;
               trace := trace s ++ replicate k (EvSend PingMessage) |}).
Proof.
  destruct s as [[p q h a] r t]. simpl. intros ->. split.
  - apply pinger_until_tick.
  - intros k. apply pinger_until_full.
Qed.

(** X10.  The Reader Loop starts the handlers in the order of arrival.  For
    frames that are read and decoded without error to messages that are
    neither Open nor Ping nor Pong, the loop starts one
    [processIncomingMessage] goroutine for each message, in the order in
    which the frames arrived, changes nothing else, and waits in
    [GetMessage]. *)
Theorem inLoop_dispatches_in_arrival_order (pkgs : list string) (s : State) :
  Forall (fun pkg => (Decode pkg).2 = None
                     /\ exists code, Type_ (Decode pkg).1 = MessageTypeOther code) pkgs ->
  inLoop (map (fun pkg => (pkg, None)) pkgs) s
  = Blocks OnGetMessage
      {| chan := chan s;
         overflooded := overflooded s;
         trace := trace s ++ map (fun pkg => EvGo (Decode pkg).1) pkgs |}.
Proof.
  revert s. induction pkgs as [|pkg pkgs IH]; intros s Hall.
  - simpl. destruct s. simpl. by rewrite app_nil_r.
  - apply Forall_cons in Hall as [[Herr [code HT]] Hall].
    change (map (fun pkg => (pkg, None)) (pkg :: pkgs))
      with ((pkg, @None error) :: map (fun pkg => (pkg, @None error)) pkgs).
    destruct (Decode pkg) as [msg derr] eqn:HD. simpl in Herr, HT. subst derr.
    rewrite (inLoop_step pkg msg _ s HD).
    unfold mbind, M_bind, inLoop_switch. rewrite HT.
    unfold goProcessIncomingMessage. rewrite IH by done.
    simpl. rewrite HD. simpl. by rewrite <- app_assoc.
Qed.

(** X11.  A well-formed handshake.  For a frame that is read and decoded
    without error to an Open message with a non-empty source whose payload
    [json.Unmarshal] accepts, the Reader Loop stores the header, calls the
    connection notification once and goes on with the next frame; the
    queue, the liveness flag and [overflooded] are as they were, and
    [Id()] is then the [sid] of the stored header. *)
Theorem inLoop_open_sets_header
    (pkg : string) (msg : Message) (a : ascii) (data : string) (h : Header)
    (reads : list (string * option error)) (s : State) :
  Decode pkg = (msg, None) ->
  Type_ msg = MessageTypeOpen ->
  Source msg = String a data ->
  Unmarshal data (header (chan s)) = (h, None) ->
  exists s1,
    s1 = {| chan := {| self := self (chan s); out := out (chan s);
                       header := h; alive := alive (chan s) |};
            overflooded := overflooded s;
            trace := trace s ++ [EvCallLoopEvent OnConnection] |}
    /\ inLoop_switch msg s = Val tt s1
    /\ inLoop ((pkg, None) :: reads) s = inLoop reads s1
    /\ Id (chan s1) = Sid h.
Proof.
  intros HD HT HS HU. eexists. split; [reflexivity|].
  assert (Hsw : inLoop_switch msg s
                = Val tt {| chan := {| self := self (chan s); out := out (chan s);
                                       header := h; alive := alive (chan s) |};
                            overflooded := overflooded s;
                            trace := trace s ++ [EvCallLoopEvent OnConnection] |}).
  { rewrite (inLoop_switch_open msg a data s HT HS), HU. done. }
  split; [exact Hsw|]. split; [|done].
  rewrite (inLoop_step pkg msg reads s HD). unfold mbind, M_bind. by rewrite Hsw.
Qed.

(** ** The loops together *)

Lemma outLoop_empties_queue_and_waits_aux
    (q : list string) (writes : list (option error)) (s : State) :
  out (chan s) = q ->
  CloseMessage ∉ q ->
  (Z.of_nat (length q) < queueBufferSize - 1)%Z ->
  exists s',
    outLoop (replicate (length q) None ++ writes) s = Blocks OnRecv s'
    /\ out (chan s') = []
    /\ written (trace s') = written (trace s) ++ q
    /\ alive (chan s') = alive (chan s)
    /\ (self (chan s) ∉ overflooded s').
Proof.
  revert s. induction q as [|x q IH]; intros s Hq Hnotin Hd.
  - assert (Hd' : (Z.of_nat (length (out (chan s))) < queueBufferSize - 1)%Z)
      by (by rewrite Hq).
    destruct (outLoop_pass (replicate (length (@nil string)) (None : option error) ++ writes)
                s Hd') as (ev & r & Hev & Hr & ->).
    unfold mbind, M_bind, recv. simpl. rewrite Hq.
    eexists. split; [reflexivity|]. simpl. split; [done|]. split.
    { by rewrite written_app, Hev. }
    split; [done|]. rewrite Hr, Hq, half_queueBufferSize. simpl. lia.
  - assert (Hd' : (Z.of_nat (length (out (chan s))) < queueBufferSize - 1)%Z)
      by (by rewrite Hq).
    destruct (outLoop_pass (replicate (length (x :: q)) (None : option error) ++ writes)
                s Hd') as (ev & r & Hev & Hr & ->).
    apply not_elem_of_cons in Hnotin as [Hx Hnotin].
    unfold mbind at 1, M_bind at 1, recv. simpl. rewrite Hq. simpl.
    rewrite decide_False by done.
    unfold mbind, M_bind, connWriteMessage.
    set (s1 := emit (EvWriteMessage x) _).
    destruct (IH s1) as (s' & Hrun & Hout & Hw & Ha & Hreg); [done|done| |].
    { simpl in Hd. lia. }
    exists s'. split; [exact Hrun|]. split; [done|]. split; [|done].
    rewrite Hw. unfold s1, emit, set_out. cbn [trace].
    rewrite !written_app, Hev. simpl. by rewrite !app_nil_r, <- app_assoc.
Qed.

(** X12.  The Writer Loop empties a queue without sentinel and waits.  When
    the queue holds the strings [q], none of them the sentinel and fewer
    than [queueBufferSize - 1] of them, and [WriteMessage] succeeds for
    each, the loop writes exactly the strings of [q] to the transport, in
    the order of the queue, and then waits in the receive on the empty
    queue, with the session out of [overflooded] and the liveness flag as
    it was. *)
Theorem outLoop_empties_queue_and_waits
    (q : list string) (writes : list (option error)) (s : State) :
  out (chan s) = q ->
  CloseMessage ∉ q ->
  (Z.of_nat (length q) < queueBufferSize - 1)%Z ->
  exists s',
    outLoop (replicate (length q) None ++ writes) s = Blocks OnRecv s'
    /\ out (chan s') = []
    /\ written (trace s') = written (trace s) ++ q
    /\ alive (chan s') = alive (chan s)
    /\ (self (chan s) ∉ overflooded s').
Proof. apply outLoop_empties_queue_and_waits_aux. Qed.

(** X13.  A ping is answered.  On a session whose queue holds the strings
    [q], none of them the sentinel, with room below the overflow bound,
    and with a pong that is not the sentinel: when the Reader Loop has
    handled a Ping frame and the Writer Loop then runs with a transport
    that accepts every write, what is written to the transport is [q]
    followed by one [protocol.PongMessage], and the Writer Loop waits on
    the empty queue. *)
Theorem ping_is_answered
    (msg : Message) (q : list string) (writes : list (option error)) (s : State) :
  Type_ msg = MessageTypePing ->
  out (chan s) = q ->
  CloseMessage ∉ q ->
  PongMessage <> CloseMessage ->
  (Z.of_nat (length q) + 1 < queueBufferSize - 1)%Z ->
  exists s',
    (inLoop_switch msg;; outLoop (replicate (S (length q)) None ++ writes)) s
    = Blocks OnRecv s'
    /\ out (chan s') = []
    /\ written (trace s') = written (trace s) ++ q ++ [PongMessage].
Proof.
  intros HT Hq Hnotin Hpong Hd.
  unfold mbind at 1, M_bind at 1, inLoop_switch. rewrite HT. unfold send.
  rewrite decide_True by (rewrite Hq; unfold queueBufferSize in *; lia).
  set (s1 := emit (EvSend PongMessage) _).
  destruct (outLoop_empties_queue_and_waits_aux (q ++ [PongMessage]) writes s1)
    as (s' & Hrun & Hout & Hw & _).
  - unfold s1. simpl. by rewrite Hq.
  - rewrite not_elem_of_app, not_elem_of_cons. split; [done|].
    split; [done|apply not_elem_of_nil].
  - rewrite length_app. simpl. lia.
  - exists s'. rewrite length_app in Hrun. simpl in Hrun.
    replace (length q + 1) with (S (length q)) in Hrun by lia.
    split; [exact Hrun|]. split; [done|].
    rewrite Hw. unfold s1, emit, set_out. cbn [trace].
    rewrite written_app. simpl. by rewrite app_nil_r.
Qed.

(** X14.  Keepalive pings alone overflow a queue that nobody drains.  On a
    live session, once the ticks of [pinger] have brought the queue to
    [queueBufferSize - 1] strings or more, the next pass of the Writer Loop
    closes the session: it returns [nil], the liveness flag is false, the
    queue holds the sentinel only, and none of the queued strings is
    written to the transport. *)
Theorem pinger_then_outLoop_closes
    (n : nat) (writes : list (option error)) (s : State) :
  alive (chan s) = true ->
  (queueBufferSize - 1 <= Z.of_nat (length (out (chan s)) + n) <= queueBufferSize)%Z ->
  exists s',
    outLoop writes (final (pinger n s)) = Val None s'
    /\ alive (chan s') = false
    /\ out (chan s') = [CloseMessage]
    /\ written (trace s') = written (trace s).
Proof.
  destruct s as [[p q h a] r t]. simpl. intros -> [Hlo Hhi].
  rewrite pinger_until_tick by done. cbn [final].
  rewrite outLoop_unfold. unfold mbind at 1, M_bind at 1, len_out at 1.
  rewrite decide_True by (simpl; rewrite length_app, length_replicate; lia).
  rewrite closeChannel_live by done.
  eexists. split; [reflexivity|]. split; [done|]. split; [done|].
  rewrite written_closing. cbn [trace]. rewrite written_app.
  assert (Hpings : written (replicate n (EvSend PingMessage)) = []).
  { clear. induction n as [|n IH]; [done|]. simpl. exact IH. }
  by rewrite Hpings, app_nil_r.
Qed.

(** ** Two calls of [closeChannel] at once *)

Lemma closeSteps_app (n m : nat) :
  forall pt s, closeSteps (n + m) pt s = (pt' ← closeSteps n pt; closeSteps m pt') s.
Proof.
  induction n as [|n IH]; intros pt s; [done|].
  simpl. unfold mbind, M_bind.
  destruct (closeStep pt s) as [pt' s'|b s'|s']; [|done..].
  apply IH.
Qed.

Lemma closeSteps_drain (q : list string) :
  forall p h a r t,
    closeSteps (length q * 2) AtLen (mkState (mkChannel p q h a) r t)
    = Val AtLen (mkState (mkChannel p [] h a) r (t ++ map EvRecv q)).
Proof.
  induction q as [|x q IH]; intros p h a r t.
  - simpl. by rewrite app_nil_r.
  - change (length (x :: q) * 2) with (S (S (length q * 2))).
    simpl. unfold mbind, M_bind, len_out, recv. simpl.
    unfold emit, set_out. simpl. rewrite IH. by rewrite <- app_assoc.
Qed.

(** A call that has passed the test and closed the transport, and runs on
    without interruption. *)
Lemma closeSteps_teardown (q : list string) (p : ChanPtr) (h : Header) (a : bool)
    (r : gset ChanPtr) (t : list Event) :
  closeSteps (S (length q * 2 + 4)) AtSetAliveValue (mkState (mkChannel p q h a) r t)
  = Val AtReturn
      (mkState (mkChannel p [CloseMessage] h false) (r ∖ {[ p ]})
         (t ++ [EvSetAlive false] ++ map EvRecv q
            ++ [EvSend CloseMessage; EvCallLoopEvent OnDisconnection;
                EvDeleteOverflooded p])).
Proof.
  change (closeSteps (S (length q * 2 + 4)) AtSetAliveValue
            (mkState (mkChannel p q h a) r t))
    with (closeSteps (length q * 2 + 4) AtLen
            (mkState (mkChannel p q h false) r (t ++ [EvSetAlive false]))).
  rewrite closeSteps_app. unfold mbind at 1, M_bind at 1.
  rewrite closeSteps_drain. simpl.
  unfold mbind, M_bind, len_out, send. simpl.
  unfold mret, M_ret, emit, set_out, set_overflooded. simpl.
  by rewrite <- !app_assoc.
Qed.

(** Run without interruption, the operations of a call are the call. *)
Lemma closeSteps_alone (args : list error) (s : State) :
  exists s',
    closeChannel args s = Val None s'
    /\ closeSteps (if alive (chan s) then 2 + S (length (out (chan s)) * 2 + 4) else 1)
         AtIsAlive s
       = Val AtReturn s'.
Proof.
  exists (if alive (chan s) then closedState s else s).
  split; [apply closeChannel_returns|].
  destruct s as [[p q h a] r t]. destruct a; [|done]. cbn [alive chan out].
  change (closeSteps (2 + S (length q * 2 + 4)) AtIsAlive
            (mkState (mkChannel p q h true) r t))
    with (closeSteps (S (length q * 2 + 4)) AtSetAliveValue
            (mkState (mkChannel p q h true) r (t ++ [EvConnClose]))).
  rewrite closeSteps_teardown. unfold closedState. simpl.
  by rewrite <- !app_assoc.
Qed.

Lemma interleave_app (l1 l2 : list Goroutine) :
  forall rd wr s,
    interleave (l1 ++ l2) rd wr s
    = (x ← interleave l1 rd wr; interleave l2 x.1 x.2) s.
Proof.
  induction l1 as [|[] l1 IH]; intros rd wr s; [done|..];
    simpl; unfold mbind, M_bind;
    [destruct (closeStep rd s) as [pt' s'|b s'|s']
    |destruct (closeStep wr s) as [pt' s'|b s'|s']]; try done; apply IH.
Qed.

Lemma interleave_reader (n : nat) :
  forall rd wr s,
    interleave (replicate n Reader) rd wr s
    = (rd' ← closeSteps n rd; mret (rd', wr)) s.
Proof.
  induction n as [|n IH]; intros rd wr s; [done|].
  simpl. unfold mbind, M_bind.
  destruct (closeStep rd s) as [pt' s'|b s'|s']; [|done..].
  apply IH.
Qed.

Lemma interleave_writer (n : nat) :
  forall rd wr s,
    interleave (replicate n Writer) rd wr s
    = (wr' ← closeSteps n wr; mret (rd, wr')) s.
Proof.
  induction n as [|n IH]; intros rd wr s; [done|].
  simpl. unfold mbind, M_bind.
  destruct (closeStep wr s) as [pt' s'|b s'|s']; [|done..].
  apply IH.
Qed.

(** X15.  Two calls of [closeChannel] can both tear the session down.  On
    a live session, let the call of the Reader Loop test the flag and
    close the transport, then let the call of the Writer Loop run from its
    test to its return, then let the call of the Reader Loop finish.  The
    flag is still true when the second call tests it, because the first
    call clears it only after the transport close; so both calls run the
    whole body: the transport is closed twice and the disconnect
    notification is fired twice, and the first call discards the sentinel
    that the second had sent before sending its own. *)
Theorem closeChannel_interleaved_tears_down_twice (s : State) :
  alive (chan s) = true ->
  interleave (replicate 2 Reader
              ++ replicate (2 * length (out (chan s)) + 7) Writer
              ++ replicate 7 Reader)
    AtIsAlive AtIsAlive s
  = Val (AtReturn, AtReturn)
      {| chan := {| self := self (chan s);
                    out := [CloseMessage];
                    header := header (chan s);
                    alive := false |};
         overflooded := overflooded s ∖ {[ self (chan s) ]} ∖ {[ self (chan s) ]};
         trace := trace s
                  ++ [EvConnClose]
                  ++ ([EvConnClose; EvSetAlive false]
                      ++ map EvRecv (out (chan s))
                      ++ [EvSend CloseMessage;
                          EvCallLoopEvent OnDisconnection;
                          EvDeleteOverflooded (self (chan s))])
                  ++ [EvSetAlive false; EvRecv CloseMessage;
                      EvSend CloseMessage;
                      EvCallLoopEvent OnDisconnection;
                      EvDeleteOverflooded (self (chan s))] |}.
Proof.
  destruct s as [[p q h a] r t]. cbn [alive chan out self header overflooded trace].
  intros ->.
  replace (2 * length q + 7) with (2 + S (length q * 2 + 4)) by lia.
  rewrite interleave_app. unfold mbind at 1, M_bind at 1.
  rewrite interleave_reader.
  change ((rd' ← closeSteps 2 AtIsAlive; mret (rd', AtIsAlive))
            (mkState (mkChannel p q h true) r t))
    with (Val (A := ClosePoint * ClosePoint) (AtSetAliveValue, AtIsAlive)
            (mkState (mkChannel p q h true) r (t ++ [EvConnClose]))).
  cbn [fst snd].
  rewrite interleave_app. unfold mbind at 1, M_bind at 1.
  rewrite interleave_writer. unfold mbind at 1, M_bind at 1.
  change (closeSteps (2 + S (length q * 2 + 4)) AtIsAlive
            (mkState (mkChannel p q h true) r (t ++ [EvConnClose])))
    with (closeSteps (S (length q * 2 + 4)) AtSetAliveValue
            (mkState (mkChannel p q h true) r ((t ++ [EvConnClose]) ++ [EvConnClose]))).
  rewrite closeSteps_teardown. cbn [fst snd mret M_ret].
  rewrite interleave_reader. unfold mbind at 1, M_bind at 1.
  change 7 with (S (length [CloseMessage] * 2 + 4)).
  rewrite closeSteps_teardown. unfold mret, M_ret. simpl.
  rewrite <- !app_assoc. simpl. by rewrite <- !app_assoc.
Qed.

(** X16.  The drain of [closeChannel] against the receive of the Writer
    Loop.  Take a session with one string on the queue, not the sentinel,
    on which a call of [closeChannel] has found [len(c.out) > 0] and is
    about to receive.  If the Writer Loop runs first, it takes that string,
    writes it and waits in its receive on the empty queue; the call of
    [closeChannel] then waits in its receive too, with the queue empty and
    the sentinel not sent. *)
Theorem closeChannel_drain_race (x : string) (s : State) :
  out (chan s) = [x] ->
  x <> CloseMessage ->
  closeStep AtLen s = Val AtRecv s
  /\ exists s1,
      outLoop [None] s = Blocks OnRecv s1
      /\ out (chan s1) = []
      /\ written (trace s1) = written (trace s) ++ [x]
      /\ closeStep AtRecv s1 = Blocks OnRecv s1.
Proof.
  intros Hq Hx. split.
  - unfold closeStep, mbind, M_bind, len_out. by rewrite Hq.
  - destruct (outLoop_empties_queue_and_waits_aux [x] [] s)
      as (s1 & Hrun & Hout & Hw & _).
    + done.
    + rewrite not_elem_of_cons. split; [done|apply not_elem_of_nil].
    + unfold queueBufferSize. simpl. lia.
    + exists s1. split; [exact Hrun|]. split; [done|]. split; [done|].
      unfold closeStep, mbind, M_bind, recv. by rewrite Hout.
Qed.

End Loops.

(** * The ack correlator *)

Section AckFacts.

Import Ack.

Lemma register_fresh (deadline : Z) (c : Correlator) :
  waiters c !! (register deadline c).1 = None
  /\ waiters (register deadline c).2 !! (register deadline c).1 = Some deadline.
Proof.
  simpl. split; [|by rewrite lookup_insert_eq].
  apply not_elem_of_dom, is_fresh.
Qed.

Lemma step_without_waiter (a : Attempt) (c : Correlator) :
  waiters c !! attemptId a = None -> step a c = c.
Proof.
  destruct a as [id p|id]; simpl; intros Hw;
    unfold deliverReply, expire; by rewrite Hw.
Qed.

Lemma step_other_id (a : Attempt) (id : nat) (c : Correlator) :
  attemptId a <> id ->
  waiters (step a c) !! id = waiters c !! id
  /\ resolutions id (step a c) = resolutions id c.
Proof.
  intros Hne. unfold resolutions.
  destruct a as [i p|i]; simpl in *; unfold deliverReply, expire;
    destruct (waiters c !! i); simpl; try done;
    (split; [by rewrite lookup_delete_ne|]);
    rewrite filter_app, filter_cons_False, filter_nil, app_nil_r; done.
Qed.

Lemma step_pending (a : Attempt) (d : Z) (c : Correlator) :
  waiters c !! attemptId a = Some d ->
  waiters (step a c) !! attemptId a = None
  /\ resolutions (attemptId a) (step a c)
     = resolutions (attemptId a) c ++ [attemptResult a].
Proof.
  intros Hw. unfold resolutions.
  destruct a as [i p|i]; simpl in *; unfold deliverReply, expire;
    rewrite Hw; simpl; (split; [by rewrite lookup_delete_eq|]);
    rewrite filter_app, filter_cons_True, filter_nil, fmap_app; done.
Qed.

Lemma run_without_waiter (id : nat) (l : list Attempt) :
  forall c, waiters c !! id = None ->
    waiters (run l c) !! id = None
    /\ resolutions id (run l c) = resolutions id c.
Proof.
  induction l as [|a l IH]; intros c Hw; [done|].
  change (run (a :: l) c) with (run l (step a c)).
  destruct (decide (attemptId a = id)) as [<-|Hne].
  - rewrite step_without_waiter by done. by apply IH.
  - destruct (step_other_id a id c Hne) as [Hw' Hr'].
    rewrite <- Hr'. apply IH. by rewrite Hw'.
Qed.

Lemma run_pending (id : nat) (l : list Attempt) :
  forall c d, waiters c !! id = Some d ->
    resolutions id (run l c)
    = resolutions id c
      ++ match firstAttempt id l with
         | Some a => [attemptResult a]
         | None => []
         end
    /\ waiters (run l c) !! id
       = match firstAttempt id l with
         | Some _ => None
         | None => Some d
         end.
Proof.
  unfold firstAttempt.
  induction l as [|a l IH]; intros c d Hw.
  - simpl. by rewrite app_nil_r.
  - change (run (a :: l) c) with (run l (step a c)).
    destruct (decide (attemptId a = id)) as [<-|Hne].
    + rewrite filter_cons_True by done. simpl.
      destruct (step_pending a d c Hw) as [Hw' Hr'].
      destruct (run_without_waiter (attemptId a) l (step a c) Hw') as [Hw'' Hr''].
      by rewrite Hr'', Hr'.
    + rewrite filter_cons_False by done.
      destruct (step_other_id a id c Hne) as [Hw' Hr'].
      rewrite <- Hr'. apply IH. by rewrite Hw'.
Qed.

(** C7.  Take a pending waiter with correlation id [id], and any sequence
    of reply deliveries and deadline expiries (for this and for other
    ids).  The callers waiting on [id] receive exactly one more result when
    the sequence holds an attempt on [id], the result of the first such
    attempt, and none otherwise; and once an attempt on [id] has been made
    every further attempt on [id], a reply or an expiry, leaves the
    correlator exactly as it was. *)
Theorem ack_resolved_once (c : Correlator) (id : nat) (d : Z) (l : list Attempt) :
  waiters c !! id = Some d ->
  resolutions id (run l c)
  = resolutions id c
    ++ match firstAttempt id l with
       | Some a => [attemptResult a]
       | None => []
       end
  /\ (forall a late, firstAttempt id l = Some a -> attemptId late = id ->
        step late (run l c) = run l c).
Proof.
  intros Hw. destruct (run_pending id l c d Hw) as [Hr Hw'].
  split; [done|].
  intros a late Ha <-. rewrite Ha in Hw'. by apply step_without_waiter.
Qed.

End AckFacts.

(** * The properties on concrete sessions *)

Lemma closeChannel_effects_witness :
  closeChannel "1" [ErrorSocketOverflood] liveSession
  = Val None
      {| chan := {| self := 7%positive; out := ["1"];
                    header := header (chan liveSession); alive := false |};
         overflooded := overflooded liveSession ∖ {[ 7%positive ]};
         trace := [EvConnClose; EvSetAlive false; EvRecv "42[chat]"; EvRecv "2";
                   EvSend "1"; EvCallLoopEvent OnDisconnection;
                   EvDeleteOverflooded 7%positive] |}.
Proof.
  exact (closeChannel_effects "1" [ErrorSocketOverflood] liveSession eq_refl).
Defined.

(** C1 as stated fails: in the run of [closeChannel] on [liveSession] the
    transport is closed first and the liveness flag is cleared after it,
    and the run is the same whatever the cause. *)
Lemma closeChannel_clear_before_close_cex :
  alive (chan liveSession) = true
  /\ ~ happensBefore (EvSetAlive false) EvConnClose
        (trace (final (closeChannel "1" [ErrorSocketOverflood] liveSession)))
  /\ happensBefore EvConnClose (EvSetAlive false)
        (trace (final (closeChannel "1" [ErrorSocketOverflood] liveSession)))
  /\ closeChannel "1" [ErrorSocketOverflood] liveSession
     = closeChannel "1" [ErrorWrongHeader] liveSession.
Proof.
  split; [reflexivity|].
  split; [vm_compute; lia|].
  split; [vm_compute; lia|reflexivity].
Qed.

Lemma closeChannel_idempotent_witness :
  alive (chan closedSession) = false
  /\ closeChannel "1" [ErrorWrongHeader] closedSession = Val None closedSession.
Proof.
  split; [reflexivity|].
  apply (closeChannel_idempotent "1" [ErrorWrongHeader] closedSession).
  reflexivity.
Defined.

Lemma outLoop_iteration_witness :
  (exists s',
      closeChannel "1" [ErrorSocketOverflood] (queuedSession "42[chat]" 9999) = Val None s'
      /\ outLoop "1" [] (queuedSession "42[chat]" 9999) = Val None s')
  /\ outLoop "1" [] (queuedSession "1" 5001)
     = Val None
         {| chan := {| self := 7%positive; out := repeat "42[chat]" 5000;
                       header := zeroHeader; alive := true |};
            overflooded := {[ 7%positive ]} ∪ ∅;
            trace := [EvStoreOverflow 7%positive; EvRecv "1"] |}
  /\ outLoop "1" [] (queuedSession "1" 5000)
     = Val None
         {| chan := {| self := 7%positive; out := repeat "42[chat]" 4999;
                       header := zeroHeader; alive := true |};
            overflooded := ∅ ∖ {[ 7%positive ]};
            trace := [EvDeleteOverflooded 7%positive; EvRecv "1"] |}.
Proof.
  split; [|split].
  - apply (outLoop_iteration "1" [] (queuedSession "42[chat]" 9999)).
    vm_compute. discriminate.
  - apply (outLoop_iteration "1" [] (queuedSession "1" 5001)).
    + vm_compute. split; reflexivity.
    + reflexivity.
  - apply (outLoop_iteration "1" [] (queuedSession "1" 5000)).
    + vm_compute. discriminate.
    + reflexivity.
Defined.

(** C4: the run at a read error.  [GetMessage] fails on a live session;
    [inLoop] returns [nil] after closing the channel, whereas for a frame that
    cannot be decoded it returns the error of the decoder. *)
Lemma inLoop_read_error_example :
  inLoop "1" "3" frameDecode jsonUnmarshal
    [("", Some (ForeignError "EOF"))] liveSession
  = Val None closedSession
  /\ inLoop "1" "3" frameDecode jsonUnmarshal [("", None)] liveSession
     = Val (Some (ForeignError "Wrong message type")) closedSession.
Proof. split; reflexivity. Qed.

Lemma inLoop_switch_open_parse_failure_witness :
  exists s1,
    closeChannel "1" [ErrorWrongHeader]
      (set_header (header (chan liveSession)) liveSession) = Val None s1
    /\ inLoop_switch "1" "3" jsonUnmarshal truncatedOpen liveSession
       = Val tt {| chan := chan s1;
                   overflooded := overflooded s1;
                   trace := trace s1 ++ [EvCallLoopEvent OnConnection] |}.
Proof.
  apply (inLoop_switch_open_parse_failure "1" "3" jsonUnmarshal truncatedOpen
           "0"%char "{" (header (chan liveSession))
           (ForeignError "json: syntax error") liveSession);
    reflexivity.
Defined.

Lemma inLoop_switch_ping_pong_witness :
  inLoop_switch "1" "3" jsonUnmarshal
    {| Type_ := MessageTypePing; Source := "2" |} liveSession
  = Val tt
      {| chan := {| self := 7%positive;
                    out := ["42[chat]"; "2"; "3"];
                    header := header (chan liveSession);
                    alive := true |};
         overflooded := overflooded liveSession;
         trace := [EvSend "3"] |}
  /\ inLoop_switch "1" "3" jsonUnmarshal
       {| Type_ := MessageTypePong; Source := "3" |} liveSession
     = Val tt liveSession.
Proof.
  split.
  - exact (proj1 (inLoop_switch_ping_pong "1" "3" jsonUnmarshal
                    {| Type_ := MessageTypePing; Source := "2" |} liveSession)
                 eq_refl).
  - exact (proj2 (inLoop_switch_ping_pong "1" "3" jsonUnmarshal
                    {| Type_ := MessageTypePong; Source := "3" |} liveSession)
                 eq_refl).
Defined.

Lemma inLoop_switch_open_empty_source_witness :
  inLoop_switch "1" "3" jsonUnmarshal
    {| Type_ := MessageTypeOpen; Source := "" |} liveSession
  = Panics liveSession.
Proof.
  apply (inLoop_switch_open_empty_source "1" "3" jsonUnmarshal
           {| Type_ := MessageTypeOpen; Source := "" |} liveSession);
    reflexivity.
Defined.

Lemma pinger_tick_witness :
  pinger "2" 1 closedSession = Val tt closedSession
  /\ pinger "2" 1 liveSession
     = pinger "2" 0
         {| chan := {| self := 7%positive;
                       out := ["42[chat]"; "2"; "2"];
                       header := header (chan liveSession);
                       alive := true |};
            overflooded := overflooded liveSession;
            trace := [EvSend "2"] |}.
Proof.
  split.
  - apply (pinger_tick "2" 0 closedSession). reflexivity.
  - apply (pinger_tick "2" 0 liveSession); [reflexivity|].
    vm_compute. reflexivity.
Defined.

(** C5 as stated fails.  On a new session, the Open frame [mistypedOpen]
    fails to parse (the channel is closed for it), and the header is left
    with [sid] and [pingTimeout] stored and [pingInterval] not: it is
    neither unset nor what a parse has accepted.  And of two well-formed
    Open frames the second sets the header again, over what the first had
    set. *)
Lemma header_set_once_cex :
  (jsonUnmarshal (quoted "{'sid':'abc','pingInterval':'x','pingTimeout':60000}") zeroHeader).2
    <> None
  /\ header (chan (final (inLoop "1" "3" frameDecode jsonUnmarshal
                            [(mistypedOpen, None)] newSession)))
     = {| Sid := "abc"; Upgrades := []; PingInterval := 0; PingTimeout := 60000 |}
  /\ alive (chan (final (inLoop "1" "3" frameDecode jsonUnmarshal
                           [(mistypedOpen, None)] newSession))) = false
  /\ header (chan (final (inLoop "1" "3" frameDecode jsonUnmarshal
                            [(firstOpen, None)] newSession)))
     = {| Sid := "abc"; Upgrades := []; PingInterval := 25000; PingTimeout := 0 |}
  /\ header (chan (final (inLoop "1" "3" frameDecode jsonUnmarshal
                            [(firstOpen, None); (secondOpen, None)] newSession)))
     = {| Sid := "xyz"; Upgrades := []; PingInterval := 25000; PingTimeout := 0 |}.
Proof. repeat split; vm_compute; congruence. Qed.

Lemma header_written_by_open_only_witness :
  header (chan (final (inLoop_switch "1" "3" jsonUnmarshal
                         {| Type_ := MessageTypePing; Source := "2" |} liveSession)))
  = header (chan liveSession)
  /\ header (chan (final (inLoop_switch "1" "3" jsonUnmarshal
                            {| Type_ := MessageTypeOpen; Source := secondOpen |}
                            liveSession)))
     = (jsonUnmarshal (quoted "{'sid':'xyz'}") (header (chan liveSession))).1.
Proof.
  destruct (header_written_by_open_only "1" "2" "3" jsonUnmarshal)
    as (_ & _ & _ & Hother & Hopen).
  split.
  - apply Hother. simpl. discriminate.
  - apply (Hopen {| Type_ := MessageTypeOpen; Source := secondOpen |} "0"%char);
      reflexivity.
Defined.

Lemma ack_resolved_once_witness :
  Ack.resolutions 1 (Ack.run [Ack.Reply 1 "ok"; Ack.Deadline 1; Ack.Reply 1 "late"] onePending)
  = [Ack.Payload "ok"]
  /\ Ack.step (Ack.Deadline 1) (Ack.run [Ack.Reply 1 "ok"] onePending)
     = Ack.run [Ack.Reply 1 "ok"] onePending.
Proof.
  split.
  - exact (proj1 (ack_resolved_once onePending 1 5
                    [Ack.Reply 1 "ok"; Ack.Deadline 1; Ack.Reply 1 "late"] eq_refl)).
  - exact (proj2 (ack_resolved_once onePending 1 5 [Ack.Reply 1 "ok"] eq_refl)
                 (Ack.Reply 1 "ok") (Ack.Deadline 1) eq_refl eq_refl).
Defined.

(** Scenario C of the specification: an Open frame, a Ping and an event. *)
Example inLoop_scenario_C :
  inLoop "1" "3" frameDecode jsonUnmarshal
    [(quoted "0{'sid':'abc'}", None); ("2", None); ("42[custom-event]", None)]
    newSession
  = Blocks OnGetMessage
      {| chan := {| self := 7%positive; out := ["3"];
                    header := {| Sid := "abc"; Upgrades := [];
                                 PingInterval := 0; PingTimeout := 0 |};
                    alive := true |};
         overflooded := ∅;
         trace := [EvCallLoopEvent OnConnection; EvSend "3";
                   EvGo {| Type_ := MessageTypeOther 4;
                           Source := "42[custom-event]" |}] |}.
Proof. reflexivity. Qed.

(** Scenario D of the specification: the reply arrives before the
    deadline; the caller receives the payload and the expiry that follows
    does nothing. *)
Example ack_scenario_D :
  Ack.resolved (Ack.run [Ack.Reply 1 "ok"; Ack.Deadline 1] onePending)
  = [(1, Ack.Payload "ok")].
Proof. reflexivity. Qed.

(** ** The further properties on concrete sessions *)

Lemma outLoop_writes_in_queue_order_witness :
  exists s',
    outLoop "1" (replicate (length ["42[chat]"; "2"]) None ++ []) drainSession
    = Val None s'
    /\ out (chan s') = ["3"]
    /\ written (trace s') = written (trace drainSession) ++ ["42[chat]"; "2"]
    /\ alive (chan s') = alive (chan drainSession)
    /\ (self (chan drainSession) ∈ overflooded s'
        <-> (Z.of_nat (S (length ["3"])) > queueBufferSize `quot` 2)%Z).
Proof.
  apply (outLoop_writes_in_queue_order "1" ["42[chat]"; "2"] ["3"] [] drainSession).
  - reflexivity.
  - compute_done.
  - vm_compute. reflexivity.
Defined.

Lemma outLoop_write_error_witness :
  exists s',
    outLoop "1" [Some (ForeignError "broken pipe")] liveSession = Val None s'
    /\ alive (chan s') = false
    /\ out (chan s') = ["1"]
    /\ (self (chan liveSession) ∉ overflooded s')
    /\ written (trace s') = written (trace liveSession) ++ ["42[chat]"].
Proof.
  apply (outLoop_write_error "1" "42[chat]" ["2"] (ForeignError "broken pipe") []
           liveSession).
  - reflexivity.
  - discriminate.
  - vm_compute. reflexivity.
  - reflexivity.
Defined.

Lemma outLoop_after_closeChannel_witness :
  exists s',
    (closeChannel "1" [ErrorSocketOverflood];; outLoop "1" []) liveSession
    = Val None s'
    /\ out (chan s') = []
    /\ alive (chan s') = false
    /\ (self (chan liveSession) ∉ overflooded s')
    /\ written (trace s') = written (trace liveSession).
Proof.
  apply (outLoop_after_closeChannel "1" [ErrorSocketOverflood] [] liveSession).
  reflexivity.
Defined.

Lemma pinger_fills_queue_witness :
  pinger "2" 3 liveSession
  = Blocks OnTick
      {| chan := {| self := 7%positive;
                    out := out (chan liveSession) ++ replicate 3 "2";
                    header := header (chan liveSession);
                    alive := true |};
         overflooded := overflooded liveSession;
         trace := trace liveSession ++ replicate 3 (EvSend "2") |}
  /\ pinger "2" 3 (queuedSession "42[chat]" 9999)
     = Blocks (OnSend "2")
         {| chan := {| self := 7%positive;
                       out := out (chan (queuedSession "42[chat]" 9999))
                              ++ replicate 1 "2";
                       header := zeroHeader;
                       alive := true |};
            overflooded := ∅;
            trace := [] ++ replicate 1 (EvSend "2") |}.
Proof.
  split.
  - apply (pinger_fills_queue "2" 3 liveSession); [reflexivity|].
    vm_compute. discriminate.
  - apply (pinger_fills_queue "2" 3 (queuedSession "42[chat]" 9999));
      [reflexivity| |lia].
    vm_compute. reflexivity.
Defined.

Lemma inLoop_dispatches_in_arrival_order_witness :
  inLoop "1" "3" frameDecode jsonUnmarshal
    (map (fun pkg => (pkg, None)) ["42[a]"; "42[b]"]) newSession
  = Blocks OnGetMessage
      {| chan := chan newSession;
         overflooded := overflooded newSession;
         trace := trace newSession
                  ++ map (fun pkg => EvGo (frameDecode pkg).1) ["42[a]"; "42[b]"] |}.
Proof.
  apply (inLoop_dispatches_in_arrival_order "1" "3" frameDecode jsonUnmarshal
           ["42[a]"; "42[b]"] newSession).
  repeat constructor; simpl; by eexists.
Defined.

Lemma inLoop_open_sets_header_witness :
  exists s1,
    s1 = {| chan := {| self := 7%positive; out := [];
                       header := {| Sid := "abc"; Upgrades := [];
                                    PingInterval := 25000; PingTimeout := 0 |};
                       alive := true |};
            overflooded := ∅;
            trace := [] ++ [EvCallLoopEvent OnConnection] |}
    /\ inLoop_switch "1" "3" jsonUnmarshal
         {| Type_ := MessageTypeOpen; Source := firstOpen |} newSession
       = Val tt s1
    /\ inLoop "1" "3" frameDecode jsonUnmarshal [(firstOpen, None)] newSession
       = inLoop "1" "3" frameDecode jsonUnmarshal [] s1
    /\ Id (chan s1) = "abc".
Proof.
  apply (inLoop_open_sets_header "1" "3" frameDecode jsonUnmarshal firstOpen
           {| Type_ := MessageTypeOpen; Source := firstOpen |} "0"%char
           (quoted "{'sid':'abc','pingInterval':25000}")
           {| Sid := "abc"; Upgrades := []; PingInterval := 25000; PingTimeout := 0 |}
           [] newSession);
    reflexivity.
Defined.

Lemma outLoop_empties_queue_and_waits_witness :
  exists s',
    outLoop "1" (replicate (length ["42[chat]"; "2"]) None ++ []) liveSession
    = Blocks OnRecv s'
    /\ out (chan s') = []
    /\ written (trace s') = written (trace liveSession) ++ ["42[chat]"; "2"]
    /\ alive (chan s') = alive (chan liveSession)
    /\ (self (chan liveSession) ∉ overflooded s').
Proof.
  apply (outLoop_empties_queue_and_waits "1" ["42[chat]"; "2"] [] liveSession).
  - reflexivity.
  - compute_done.
  - vm_compute. reflexivity.
Defined.

Lemma ping_is_answered_witness :
  exists s',
    (inLoop_switch "1" "3" jsonUnmarshal {| Type_ := MessageTypePing; Source := "2" |};;
     outLoop "1" (replicate (S (length ["42[chat]"; "2"])) None ++ [])) liveSession
    = Blocks OnRecv s'
    /\ out (chan s') = []
    /\ written (trace s') = written (trace liveSession) ++ ["42[chat]"; "2"] ++ ["3"].
Proof.
  apply (ping_is_answered "1" "3" jsonUnmarshal
           {| Type_ := MessageTypePing; Source := "2" |} ["42[chat]"; "2"] []
           liveSession).
  - reflexivity.
  - reflexivity.
  - compute_done.
  - discriminate.
  - vm_compute. reflexivity.
Defined.

Lemma pinger_then_outLoop_closes_witness :
  exists s',
    outLoop "1" [] (final (pinger "2" 1 (queuedSession "42[chat]" 9998))) = Val None s'
    /\ alive (chan s') = false
    /\ out (chan s') = ["1"]
    /\ written (trace s') = written (trace (queuedSession "42[chat]" 9998)).
Proof.
  apply (pinger_then_outLoop_closes "1" "2" 1 [] (queuedSession "42[chat]" 9998)).
  - reflexivity.
  - vm_compute. split; discriminate.
Defined.

Lemma closeChannel_interleaved_tears_down_twice_witness :
  interleave "1"
    (replicate 2 Reader
     ++ replicate (2 * length (out (chan liveSession)) + 7) Writer
     ++ replicate 7 Reader)
    AtIsAlive AtIsAlive liveSession
  = Val (AtReturn, AtReturn)
      {| chan := {| self := self (chan liveSession);
                    out := ["1"];
                    header := header (chan liveSession);
                    alive := false |};
         overflooded := overflooded liveSession ∖ {[ self (chan liveSession) ]}
                          ∖ {[ self (chan liveSession) ]};
         trace := trace liveSession
                  ++ [EvConnClose]
                  ++ ([EvConnClose; EvSetAlive false]
                      ++ map EvRecv (out (chan liveSession))
                      ++ [EvSend "1";
                          EvCallLoopEvent OnDisconnection;
                          EvDeleteOverflooded (self (chan liveSession))])
                  ++ [EvSetAlive false; EvRecv "1";
                      EvSend "1";
                      EvCallLoopEvent OnDisconnection;
                      EvDeleteOverflooded (self (chan liveSession))] |}.
Proof.
  exact (closeChannel_interleaved_tears_down_twice "1" liveSession eq_refl).
Defined.

(** In that run the transport is closed twice and the disconnect
    notification is fired twice. *)
Example closeChannel_interleaved_counts :
  let s' :=
    final (interleave "1"
             (replicate 2 Reader ++ replicate 11 Writer ++ replicate 7 Reader)
             AtIsAlive AtIsAlive liveSession) in
  occurrences EvConnClose (trace s') = 2
  /\ occurrences (EvCallLoopEvent OnDisconnection) (trace s') = 2
  /\ occurrences (EvSetAlive false) (trace s') = 2.
Proof. repeat split; reflexivity. Qed.

Lemma closeChannel_drain_race_witness :
  closeStep "1" AtLen drainingSession = Val AtRecv drainingSession
  /\ exists s1,
      outLoop "1" [None] drainingSession = Blocks OnRecv s1
      /\ out (chan s1) = []
      /\ written (trace s1) = written (trace drainingSession) ++ ["42[chat]"]
      /\ closeStep "1" AtRecv s1 = Blocks OnRecv s1.
Proof.
  apply (closeChannel_drain_race "1" "42[chat]" drainingSession).
  - reflexivity.
  - discriminate.
Defined.
